(** * vectormodel: serving matrix-factorization recommendations

    A shallow embedding of [vectormodel/vector_model.go] (package
    [vectormodel] of jbochi/facts) and the properties of its public
    operations [NewVectorModel], [Rank] and [Recommend].

    - Go's [float64] is kept abstract: the class [Float64] only names the
      operations the package uses, and no algebraic law is assumed unless a
      statement says so.  The theorems therefore hold for IEEE binary64
      (instance [binary64], on Rocq's primitive floats) as well as for
      exact arithmetic.
    - A Go call either returns or panics: the [outcome] monad.  Go errors
      are ordinary returned values.
    - Ranging over a Go map visits the entries in an unspecified order,
      picked anew at every [range] statement: an instance of the class
      [MapRange] holds the orders picked during one call, and a
      statement about two calls takes two instances.
    - Go's [int] has 64 bits: a product of two lengths wraps around
      ([int_mul]).
    - [Rank] writes through its [candidates] pointer, [Recommend] passes
      the address of the model's own [docIDs]: both run on an explicit
      [heap] that holds the model and the caller's slice. *)

From Stdlib Require Import ZArith List Floats Permutation Sorted.
From stdpp Require Import base option list gmap strings sorting.

Set Default Proof Using "Type".
Local Open Scope string_scope.

(** ** The Go runtime *)

Module Go.

(** A call returns a value or panics with a message. *)
Inductive outcome (A : Type) : Type :=
| Ret (a : A)
| Panic (msg : string).
Arguments Ret {A} a.
Arguments Panic {A} msg.

#[export] Instance outcome_ret : MRet outcome := @Ret.
#[export] Instance outcome_bind : MBind outcome := λ A B f m,
  match m with
  | Ret a => f a
  | Panic msg => Panic msg
  end.

Definition returns {A} (m : outcome A) : Prop := ∃ a, m = Ret a.

(** A slice value: [None] is the nil slice. *)
Definition slice (A : Type) : Type := option (list A).

(** [s[i]]: an index expression panics out of range. *)
Definition index {A} (s : list A) (i : nat) : outcome A :=
  match s !! i with
  | Some x => Ret x
  | None => Panic "runtime error: index out of range"
  end.

(** Go's [int], on the 64-bit platforms: the largest value, and the
    product, which wraps around. *)
Definition max_int : Z := 2 ^ 63 - 1.

Definition int_mul (x y : Z) : Z := ((x * y + 2 ^ 63) `mod` 2 ^ 64 - 2 ^ 63)%Z.

(** [make([]T, len)], every element being the zero value; the memory
    that holds the slice is not modelled. *)
Definition make_slice {A} (len : Z) (zero : A) : outcome (list A) :=
  if decide (0 ≤ len)%Z then Ret (replicate (Z.to_nat len) zero)
  else Panic "runtime error: makeslice: len out of range".

(** [s[i] = x] *)
Definition assign {A} (s : list A) (i : nat) (x : A) : outcome (list A) :=
  if decide (i < length s) then Ret (<[i := x]> s)
  else Panic "runtime error: index out of range".

(** [s[:n]] for an [int] n; the capacity of every slice resliced in the
    package equals its length. *)
Definition reslice_to {A} (s : list A) (n : Z) : outcome (list A) :=
  if decide (0 ≤ n ≤ Z.of_nat (length s))%Z then Ret (take (Z.to_nat n) s)
  else Panic "runtime error: slice bounds out of range".

(** A loop over a list whose body may panic. *)
Fixpoint foldlM {A B} (f : B → A → outcome B) (l : list A) (b : B) : outcome B :=
  match l with
  | [] => Ret b
  | x :: l => b' ← f b x; foldlM f l b'
  end.

(** A loop that fills a new slice, element by element. *)
Fixpoint forM {A B} (f : A → outcome B) (l : list A) : outcome (list B) :=
  match l with
  | [] => Ret []
  | x :: l => y ← f x; ys ← forM f l; Ret (y :: ys)
  end.

(** A loop whose body may also [return] from the enclosing function:
    [inl] carries what it returns, [inr] the loop state to go on with. *)
Fixpoint for_range {S R A} (body : S → A → outcome (R + S)) (l : list A) (s : S)
  : outcome (R + S) :=
  match l with
  | [] => Ret (inr s)
  | x :: l =>
      r ← body s x;
      match r with
      | inl v => Ret (inl v)
      | inr s' => for_range body l s'
      end
  end.

(** The order in which the [for k, v := range m] statements of one call
    visit their maps.  The language picks the order anew at each
    statement; no call of the package ranges over one map twice, so an
    instance stands for the orders of one call, and another call has an
    instance of its own. *)
Class MapRange := range : ∀ V : Type, gmap Z V → list (Z * V).
Arguments range {_ _} m.

(** What the language guarantees of it: every entry exactly once. *)
Definition range_spec `{MapRange} : Prop :=
  ∀ (V : Type) (m : gmap Z V), range m ≡ₚ map_to_list m.

(** Package [sort]: the content of a slice after [sort.Sort], for a
    [sort.Interface] whose [Len] and [Swap] are the slice's own and whose
    [Less i j] compares the elements at i and j with [less]. *)
Class SortPkg := sort_Sort : ∀ A : Type, (A → A → bool) → list A → list A.
Arguments sort_Sort {_ _} less a.

(** [less] is a strict weak order on the elements of [l], which is what
    [sort.Interface] asks of [Less]. *)
Definition strict_weak_on {A} (less : A → A → bool) (l : list A) : Prop :=
  (∀ x, x ∈ l → less x x = false) ∧
  (∀ x y z, x ∈ l → y ∈ l → z ∈ l →
     less x y = true → less y z = true → less x z = true) ∧
  (∀ x y z, x ∈ l → y ∈ l → z ∈ l →
     less x y = false → less y z = false → less x z = false).

(** The same, decided on a given slice. *)
Definition strict_weak_onb {A} (less : A → A → bool) (l : list A) : bool :=
  forallb (λ x, negb (less x x)) l &&
  forallb (λ x, forallb (λ y, forallb (λ z,
    implb (less x y && less y z) (less x z) &&
    implb (negb (less x y) && negb (less y z)) (negb (less x z))) l) l) l.

(** [sort.Sort] moves elements with [Swap] only. *)
Definition sort_permutes `{SortPkg} : Prop :=
  ∀ (A : Type) (less : A → A → bool) (a : list A), sort_Sort less a ≡ₚ a.

(** After [sort.Sort] no later element is [Less] than an earlier one,
    provided [Less] is a strict weak order on the slice. *)
Definition sort_sorts `{SortPkg} : Prop :=
  ∀ (A : Type) (less : A → A → bool) (a : list A),
    strict_weak_on less a →
    StronglySorted (λ x y, less y x = false) (sort_Sort less a).

(** [insertionSort] of package [sort], which [sort.Sort] runs on short
    slices: the element at i moves left while it is [Less] than its left
    neighbour.  [ins] works on the reversed sorted prefix. *)
Fixpoint ins {A} (less : A → A → bool) (x : A) (rprefix : list A) : list A :=
  match rprefix with
  | [] => [x]
  | y :: r => if less x y then y :: ins less x r else x :: y :: r
  end.

Definition insertionSort {A} (less : A → A → bool) (a : list A) : list A :=
  rev (foldl (λ rprefix x, ins less x rprefix) [] a).

End Go.
Export Go.

(** ** Numbers *)

(** The [float64] operations the package uses. *)
Class Float64 := {
  F : Type;
  fzero : F;
  fone : F;
  fadd : F → F → F;
  fsub : F → F → F;
  fmul : F → F → F;
  fopp : F → F;
  fgt : F → F → bool;
}.

(** IEEE 754 binary64. *)
Definition binary64 : Float64 := {|
  F := float;
  fzero := 0%float;
  fone := 1%float;
  fadd := PrimFloat.add;
  fsub := PrimFloat.sub;
  fmul := PrimFloat.mul;
  fopp := PrimFloat.opp;
  fgt := λ x y, PrimFloat.ltb y x;
|}.


(** The values of Go's [error] interface that the package returns.
    - [InvalidDimension]: [errors.New("Invalid vector size")];
    - [InsufficientHistory h m]:
      [fmt.Errorf("No seen doc is in model. History: %d Model: %d", h, m)];
    - [SingularSystem]: [errors.New("Failed to run Cholesky factorization")];
    - [Condition c]: gonum's [mat.Condition], which [Cholesky.SolveVec]
      returns for a badly conditioned system. *)
Inductive error `{Float64} : Type :=
| InvalidDimension
| InsufficientHistory (history model : nat)
| SingularSystem
| Condition (cond : F).

(** ** gonum's [mat] package *)

Module mat.
Section dense.
Context `{Float64}.

(** [mat.Dense]: row-major data, the stride being the number of columns. *)
Record Dense : Type := mkDense { rows : nat; cols : nat; data : list F }.

(** [mat.VecDense], with increment 1. *)
Definition VecDense : Type := list F.

(** A sum accumulated from zero, left to right. *)
Definition sum (l : list F) : F := foldl fadd fzero l.

(** The element at (i, j), without the bounds check. *)
Definition at0 (m : Dense) (i j : nat) : F :=
  nth (i * cols m + j) (data m) fzero.

(** The r×c matrix whose element at (i, j) is [f i j]. *)
Definition tabulate (r c : nat) (f : nat → nat → F) : Dense :=
  mkDense r c (concat ((λ i, f i <$> seq 0 c) <$> seq 0 r)).

(** gonum's [mat.NewDense], which is outside the repository: it wraps
    [data] as an r×c matrix; it panics with [ErrZeroLength] for a zero
    dimension, with [ErrNegativeDimension] for a negative one, and with
    [ErrShape] when [r*c], an [int] product, is not the length of
    [data]. *)
Definition NewDense (r c : Z) (data : list F) : outcome Dense :=
  if decide (r ≤ 0 ∨ c ≤ 0)%Z then
    if decide (r = 0 ∨ c = 0)%Z then Panic "mat: zero length in matrix dimension"
    else Panic "mat: negative dimension"
  else if decide (int_mul r c = Z.of_nat (length data)) then
    Ret (mkDense (Z.to_nat r) (Z.to_nat c) data)
  else Panic "mat: dimension mismatch".

(** Modelled from the spec: gonum's [Dense.At], outside the repository;
    the element at (i, j), a panic out of range. *)
Definition At (m : Dense) (i j : nat) : outcome F :=
  if decide (i < rows m) then
    if decide (j < cols m) then Ret (at0 m i j)
    else Panic "mat: column index out of range"
  else Panic "mat: row index out of range".

(** gonum's [Dense.Set], outside the repository: after the bounds checks
    it writes [data[i*stride+j]], an index expression of its own. *)
Definition Set_ (m : Dense) (i j : nat) (v : F) : outcome Dense :=
  if decide (i < rows m) then
    if decide (j < cols m) then
      data ← assign (data m) (i * cols m + j) v;
      Ret (mkDense (rows m) (cols m) data)
    else Panic "mat: column index out of range"
  else Panic "mat: row index out of range".

(** Modelled from the spec: gonum's [Dense.T], outside the repository;
    the transpose. *)
Definition T (m : Dense) : Dense :=
  tabulate (cols m) (rows m) (λ i j, at0 m j i).

(** gonum's [Dense.Mul], outside the repository: the matrix product into
    a receiver that is empty.  It panics with [ErrShape] when the inner
    dimensions differ and with [ErrZeroLength] when the product has no
    row or no column; a product whose number of elements is not an [int]
    gets a slice of the wrapped length, which the kernel then indexes out
    of range. *)
Definition Mul (a b : Dense) : outcome Dense :=
  if decide (cols a = rows b) then
    if decide (rows a = 0 ∨ cols b = 0) then Panic "mat: zero length in matrix dimension"
    else if decide (Z.of_nat (rows a) * Z.of_nat (cols b) ≤ max_int)%Z then
      Ret (tabulate (rows a) (cols b) (λ i j,
             sum ((λ k, fmul (at0 a i k) (at0 b k j)) <$> seq 0 (cols a))))
    else Panic "runtime error: index out of range"
  else Panic "mat: dimension mismatch".

(** Modelled from the spec: gonum's [Dense.Add], outside the repository;
    the element-wise sum, a panic when the shapes differ. *)
Definition Add (a b : Dense) : outcome Dense :=
  if decide (rows a = rows b ∧ cols a = cols b) then
    Ret (tabulate (rows a) (cols a) (λ i j, fadd (at0 a i j) (at0 b i j)))
  else Panic "mat: dimension mismatch".

(** Modelled from the spec: gonum's [Dense.Scale], outside the repository;
    every element multiplied by [alpha]. *)
Definition Scale (alpha : F) (a : Dense) : Dense :=
  tabulate (rows a) (cols a) (λ i j, fmul alpha (at0 a i j)).

(** Modelled from the spec: gonum's [Dense.RowView], outside the
    repository; row i as a vector, a panic out of range. *)
Definition RowView (m : Dense) (i : nat) : outcome VecDense :=
  if decide (i < rows m) then Ret (take (cols m) (drop (i * cols m) (data m)))
  else Panic "mat: row index out of range".

(** A vector used as a [mat.Matrix]: n rows, one column. *)
Definition column (v : VecDense) : Dense := mkDense (length v) 1 v.

(** Modelled from the spec: gonum's [mat.NewVecDense], outside the
    repository; it panics when the length of [data] is not n. *)
Definition NewVecDense (n : nat) (data : list F) : outcome VecDense :=
  if decide (n = length data) then Ret data
  else Panic "mat: dimension mismatch".

(** Modelled from the spec: gonum's [VecDense.AddScaledVec], outside the
    repository; [a + alpha*b], a panic when the lengths differ. *)
Definition AddScaledVec (a : VecDense) (alpha : F) (b : VecDense) : outcome VecDense :=
  if decide (length a = length b) then
    Ret (zip_with (λ x y, fadd x (fmul alpha y)) a b)
  else Panic "mat: dimension mismatch".

(** The dot product of row i of [a] with [x]. *)
Definition row_dot (a : Dense) (i : nat) (x : VecDense) : F :=
  sum ((λ j, fmul (at0 a i j) (nth j x fzero)) <$> seq 0 (cols a)).

(** Modelled from the spec: gonum's [VecDense.MulVec], outside the
    repository; the product of a matrix and a vector, a panic when the
    vector's length is not the number of columns. *)
Definition MulVec (a : Dense) (x : VecDense) : outcome VecDense :=
  if decide (cols a = length x) then Ret ((λ i, row_dot a i x) <$> seq 0 (rows a))
  else Panic "mat: dimension mismatch".

(** Modelled from the spec: gonum's [VecDense.At], outside the repository;
    [v.At(i, 0)], a panic out of range. *)
Definition VecAt (v : VecDense) (i : nat) : outcome F :=
  match v !! i with
  | Some x => Ret x
  | None => Panic "mat: row index out of range"
  end.

(** A value of the interface [mat.Symmetric]: a matrix and what its
    [Symmetric()] method returns. *)
Record Symmetric : Type := mkSymmetric { sym_matrix : Dense; sym_order : nat }.

(** gonum's [mat.Cholesky], which is outside the repository:
    [Factorize] returns [None] when it reports [ok = false];
    [SolveVec] returns the solution vector and a [mat.Condition] error. *)
Class CholeskyPkg := {
  Cholesky : Type;
  Factorize : Symmetric → option Cholesky;
  SolveVec : Cholesky → VecDense → outcome (VecDense * option F);
}.


End dense.
End mat.
Export mat.

(** ** Package [vectormodel] *)

Section vectormodel.
Context `{Float64} `{MapRange} `{SortPkg} `{!CholeskyPkg}.

(** [VectorModel] is a struct to handle document vector space models. *)
Record VectorModel : Type := mkVectorModel {
  confidence : F;
  regularization : F;
  docIDs : list Z;
  docIndexes : gmap Z nat;
  nFactors : nat;
  itemFactorsY : Dense;
  squaredItemFactorsYtY : Dense;
}.

(** [DocumentScore] is the result of a recommendation. *)
Record DocumentScore : Type := mkDocumentScore { DocumentID : Z; Score : F }.

(** [byDocScoreDesc.Less]: [a[i].Score > a[j].Score]. *)
Definition Less (a b : DocumentScore) : bool := fgt (Score a) (Score b).

(** The methods of [byDocScoreDesc] as [sort.Interface] calls them, by
    index: [Len], [Swap] (the tuple assignment reads [a[j]] and [a[i]],
    then writes [a[i]] and [a[j]]) and [Less]. *)
Definition byDocScoreDesc_Len (a : list DocumentScore) : nat := length a.

Definition byDocScoreDesc_Swap (a : list DocumentScore) (i j : nat)
  : outcome (list DocumentScore) :=
  aj ← index a j;
  ai ← index a i;
  a ← assign a i aj;
  assign a j ai.

Definition byDocScoreDesc_Less (a : list DocumentScore) (i j : nat) : outcome bool :=
  ai ← index a i;
  aj ← index a j;
  Ret (Less ai aj).

(** The state of the loop of [NewVectorModel]: the model under
    construction, [data] and [i]. *)
Record loop_state : Type := mkLoop { l_vm : VectorModel; l_data : list F; l_i : nat }.

Definition set_nFactors (n : nat) (vm : VectorModel) : VectorModel :=
  mkVectorModel (confidence vm) (regularization vm) (docIDs vm) (docIndexes vm)
    n (itemFactorsY vm) (squaredItemFactorsYtY vm).

Definition set_docIndexes (m : gmap Z nat) (vm : VectorModel) : VectorModel :=
  mkVectorModel (confidence vm) (regularization vm) (docIDs vm) m
    (nFactors vm) (itemFactorsY vm) (squaredItemFactorsYtY vm).

Definition set_docIDs (ids : list Z) (vm : VectorModel) : VectorModel :=
  mkVectorModel (confidence vm) (regularization vm) ids (docIndexes vm)
    (nFactors vm) (itemFactorsY vm) (squaredItemFactorsYtY vm).

Definition set_itemFactorsY (Y : Dense) (vm : VectorModel) : VectorModel :=
  mkVectorModel (confidence vm) (regularization vm) (docIDs vm) (docIndexes vm)
    (nFactors vm) Y (squaredItemFactorsYtY vm).

Definition set_squaredItemFactorsYtY (G : Dense) (vm : VectorModel) : VectorModel :=
  mkVectorModel (confidence vm) (regularization vm) (docIDs vm) (docIndexes vm)
    (nFactors vm) (itemFactorsY vm) G.

(** The body of [for doc, vector := range documents]. *)
Definition NewVectorModel_body (st : loop_state) (entry : Z * list F)
  : outcome (error + loop_state) :=
  let '(doc, vector) := entry in
  let vm := l_vm st in
  let checked :=
    if decide (l_i st = 0) then inr (set_nFactors (length vector) vm)
    else if decide (length vector ≠ nFactors vm) then inl InvalidDimension
    else inr vm in
  match checked with
  | inl e => Ret (inl e)
  | inr vm =>
      let vm := set_docIndexes (<[doc := l_i st]> (docIndexes vm)) vm in
      ids ← assign (docIDs vm) (l_i st) doc;
      let vm := set_docIDs ids vm in
      Ret (inr (mkLoop vm (l_data st ++ vector) (S (l_i st))))
  end.

(** [NewVectorModel] creates a new [VectorModel]. *)
Definition NewVectorModel (documents : gmap Z (list F)) (confidence regularization : F)
  : outcome (option VectorModel * option error) :=
  let vm := mkVectorModel confidence regularization
              (replicate (size documents) 0%Z) ∅ 0 (mkDense 0 0 []) (mkDense 0 0 []) in
  r ← for_range NewVectorModel_body (range documents) (mkLoop vm [] 0);
  match r with
  | inl e => Ret (None, Some e)
  | inr st =>
      let vm := l_vm st in
      Y ← NewDense (Z.of_nat (size documents)) (Z.of_nat (nFactors vm)) (l_data st);
      let vm := set_itemFactorsY Y vm in
      YtY ← Mul (T (itemFactorsY vm)) (itemFactorsY vm);
      let vm := set_squaredItemFactorsYtY YtY vm in
      Ret (Some vm, None)
  end.

(** The state of the loop of [NewVectorModel] once the entries [pre] have
    been visited, N being the number of documents. *)
Record loop_invariant (N : nat) (c r : F) (pre : list (Z * list F)) (st : loop_state)
  : Prop := {
  li_i : l_i st = length pre;
  li_data : l_data st = concat (pre.*2);
  li_confidence : confidence (l_vm st) = c;
  li_regularization : regularization (l_vm st) = r;
  li_docIDs : docIDs (l_vm st) = (pre.*1 ++ replicate (N - length pre) 0%Z)%list;
  li_docIndexes : ∀ doc k,
    docIndexes (l_vm st) !! doc = Some k ↔ pre.*1 !! k = Some doc;
  li_nFactors : nFactors (l_vm st) = match pre with [] => 0 | e :: _ => length e.2 end;
  li_uniform : Forall (λ e, length e.2 = nFactors (l_vm st)) pre;
}.

Definition confidenceMap (vm : VectorModel) (seenDocs : gmap Z bool) : gmap Z F :=
  foldl (λ confidenceMap entry,
           match docIndexes vm !! entry.1 with
           | Some _ => <[entry.1 := confidence vm]> confidenceMap
           | None => confidenceMap
           end) ∅ (range seenDocs).

(** [eye] returns an identity matrix with size n and [value] in the
    diagonal. *)
Definition eye (n : Z) (value : F) : outcome Dense :=
  data ← make_slice (int_mul n n) fzero;
  m ← NewDense n n data;
  foldlM (λ m i, Set_ m i i value) (seq 0 (Z.to_nat n)) m.

(** [unsafeSymmetric{A, n}]: the matrix with a [Symmetric()] method that
    returns n. *)
Definition unsafeSymmetric (A : Dense) (n : nat) : Symmetric := mkSymmetric A n.

(** The body of [for doc, confidence := range confidenceMap] in
    [userVector], on the loop state (A, b). *)
Definition userVector_body (vm : VectorModel) (Ab : Dense * VecDense) (entry : Z * F)
  : outcome (Dense * VecDense) :=
  let '(A, b) := Ab in
  let '(doc, confidence) := entry in
  match docIndexes vm !! doc with
  | None => Ret (A, b)
  | Some index =>
      factor ← RowView (itemFactorsY vm) index;
      factor2 ← Mul (column factor) (T (column factor));
      let factor2 := Scale (fsub confidence fone) factor2 in
      A ← Add A factor2;
      b ← AddScaledVec b confidence factor;
      Ret (A, b)
  end.

(** [userVector] returns the user vector for a given set of consumed
    documents. *)
Definition userVector (vm : VectorModel) (confidenceMap : gmap Z F)
  : outcome (VecDense * option error) :=
  I ← eye (Z.of_nat (nFactors vm)) (regularization vm);
  A ← Add (squaredItemFactorsYtY vm) I;
  b ← NewVecDense (nFactors vm) (replicate (nFactors vm) fzero);
  Ab ← foldlM (userVector_body vm) (range confidenceMap) (A, b);
  let '(A, b) := Ab in
  match Factorize (unsafeSymmetric A (nFactors vm)) return outcome (VecDense * option error) with
  | None => Ret ([], Some SingularSystem)
  | Some ch =>
      r ← SolveVec ch b;
      Ret (r.1, option_map Condition r.2)
  end.

(** [scoresForUserVec] returns a vector with scores given set of consumed
    documents. *)
Definition scoresForUserVec (vm : VectorModel) (userVec : VecDense) : outcome VecDense :=
  MulVec (itemFactorsY vm) userVec.

(** The memory the methods run on: the model behind the receiver [vm] and
    the slice of the caller behind [candidates]. *)
Record heap : Type := mkHeap { h_vm : VectorModel; h_candidates : list Z }.

(** A [*[]int]: the caller's slice, or [&vm.docIDs]. *)
Inductive ptr : Type := caller_slice | vm_docIDs.

Definition load (p : ptr) (h : heap) : list Z :=
  match p with
  | caller_slice => h_candidates h
  | vm_docIDs => docIDs (h_vm h)
  end.

Definition store (p : ptr) (l : list Z) (h : heap) : heap :=
  match p with
  | caller_slice => mkHeap (h_vm h) l
  | vm_docIDs => mkHeap (set_docIDs l (h_vm h)) (h_candidates h)
  end.

(** A method call: it reads and writes the heap, and returns or panics. *)
Definition M (A : Type) : Type := heap → outcome (A * heap).

#[export] Instance M_ret : MRet M := λ A a h, Ret (a, h).
#[export] Instance M_bind : MBind M := λ A B f m h,
  match m h with
  | Ret (a, h') => f a h'
  | Panic msg => Panic msg
  end.

(** A computation that does not touch the heap. *)
Definition pure {A} (m : outcome A) : M A := λ h, a ← m; Ret (a, h).

(** Reading through the receiver and through a slice pointer. *)
Definition get_vm : M VectorModel := λ h, Ret (h_vm h, h).
Definition deref (p : ptr) : M (list Z) := λ h, Ret (load p h, h).

(** An assignment to element i of the slice that [p] points to. *)
Definition assign_at (p : ptr) (i : nat) (x : Z) : M unit := λ h,
  l ← assign (load p h) i x; Ret ((), store p l h).

(** The score of one candidate, from the loop of [scoreCandidates]. *)
Definition candidate_score (vm : VectorModel) (seenDocs : gmap Z bool)
    (scoresVec : VecDense) (doc : Z) : outcome F :=
  match seenDocs !! doc with
  | Some _ => Ret (fopp fone)
  | None =>
      match docIndexes vm !! doc with
      | None => Ret fzero
      | Some docIndex => VecAt scoresVec docIndex
      end
  end.

Definition scoreCandidates (candidates : ptr) (seenDocs : gmap Z bool)
  : M (slice DocumentScore * option error) :=
  vm ← get_vm;
  let confidenceMap := confidenceMap vm seenDocs in
  if decide (size confidenceMap = 0) then
    mret (None, Some (InsufficientHistory (size seenDocs) (size (docIndexes vm))))
  else
    r ← pure (userVector vm confidenceMap);
    let '(userVec, err) := r in
    match err with
    | Some e => mret (None, Some e)
    | None =>
        scoresVec ← pure (scoresForUserVec vm userVec);
        cands ← deref candidates;
        candidateScores ← pure (forM (λ doc,
            score ← candidate_score vm seenDocs scoresVec doc;
            Ret (mkDocumentScore doc score)) cands);
        mret (Some (sort_Sort Less candidateScores), None)
    end.

(** The loop of [Rank] over [candidateScores], from index i on; the loop
    state is [scores]. *)
Fixpoint Rank_loop (candidates : ptr) (i : nat) (candidateScores : list DocumentScore)
    (scores : list F) : M (list F) :=
  match candidateScores with
  | [] => mret scores
  | candidateScore :: rest =>
      assign_at candidates i (DocumentID candidateScore);;
      scores ← pure (assign scores i (Score candidateScore));
      Rank_loop candidates (S i) rest scores
  end.

(** [Rank] sorts a list of candidate assets for a given user history. *)
Definition Rank (candidates : ptr) (seenDocs : gmap Z bool)
  : M (slice F * option error) :=
  r ← scoreCandidates candidates seenDocs;
  let '(candidateScores, err) := r in
  match err with
  | Some e => mret (None, Some e)
  | None =>
      let candidateScores := default [] candidateScores in
      let scores := replicate (length candidateScores) fzero in
      scores ← Rank_loop candidates 0 candidateScores scores;
      mret (Some scores, None)
  end.

(** [Recommend] returns a list of recommendedDocs and a list of scores. *)
Definition Recommend (seenDocs : gmap Z bool) (n : Z)
  : M (slice DocumentScore * option error) :=
  r ← scoreCandidates vm_docIDs seenDocs;
  let '(recommendations, err) := r in
  match err with
  | Some e => mret (None, Some e)
  | None =>
      if decide (Z.of_nat (length (default [] recommendations)) > n)%Z then
        recommendations ← pure (reslice_to (default [] recommendations) n);
        mret (Some recommendations, None)
      else mret (recommendations, None)
  end.

(** *** What the operations are specified to compute *)

(** The element (i, j) of Yᵗ·Y. *)
Definition gram (Y : Dense) (i j : nat) : F :=
  sum ((λ k, fmul (at0 Y k i) (at0 Y k j)) <$> seq 0 (rows Y)).

(** The invariant of a constructed model: there is a factor at least,
    and the [nFactors]×[nFactors] matrices have an [int] number of
    elements; Y has a row per document and [nFactors] columns, the ID
    index and the ID list are inverse to each other, and the stored Gram
    matrix is Yᵗ·Y. *)
Record well_formed (vm : VectorModel) : Prop := {
  wf_factors : 0 < nFactors vm;
  wf_fits : (Z.of_nat (nFactors vm) * Z.of_nat (nFactors vm) ≤ max_int)%Z;
  wf_rows : rows (itemFactorsY vm) = length (docIDs vm);
  wf_cols : cols (itemFactorsY vm) = nFactors vm;
  wf_data : length (data (itemFactorsY vm))
            = rows (itemFactorsY vm) * cols (itemFactorsY vm);
  wf_index : ∀ doc i, docIndexes vm !! doc = Some i ↔ docIDs vm !! i = Some doc;
  wf_gram : squaredItemFactorsYtY vm
            = tabulate (nFactors vm) (nFactors vm) (gram (itemFactorsY vm));
}.

(** The element (i, j) of the matrix A of the normal equations:
    (YᵗY + regularization·I)(i, j), plus (c − 1)·(f outer f)(i, j) for
    each entry (doc, c) of [entries] whose doc is in the ID index, f being
    the factor row of doc. *)
Definition system_A (vm : VectorModel) (entries : list (Z * F)) (i j : nat) : F :=
  foldl (λ acc entry,
           match docIndexes vm !! entry.1 with
           | Some k =>
               fadd acc (fmul (fsub entry.2 fone)
                           (sum [fmul (at0 (itemFactorsY vm) k i)
                                      (at0 (itemFactorsY vm) k j)]))
           | None => acc
           end)
        (fadd (at0 (squaredItemFactorsYtY vm) i j)
              (if decide (i = j) then regularization vm else fzero))
        entries.

(** The element i of the right-hand side b: the sum of c·f(i) over the
    same entries. *)
Definition system_b (vm : VectorModel) (entries : list (Z * F)) (i : nat) : F :=
  foldl (λ acc entry,
           match docIndexes vm !! entry.1 with
           | Some k => fadd acc (fmul entry.2 (at0 (itemFactorsY vm) k i))
           | None => acc
           end)
        fzero entries.

(** The score policy: −1 for a seen document, 0 for a document unknown
    to the model, else the dot product of the document's factor row with
    the user vector. *)
Definition specified_score (vm : VectorModel) (seenDocs : gmap Z bool)
    (userVec : VecDense) (doc : Z) (score : F) : Prop :=
  (is_Some (seenDocs !! doc) → score = fopp fone) ∧
  (seenDocs !! doc = None → docIndexes vm !! doc = None → score = fzero) ∧
  (seenDocs !! doc = None → ∀ k, docIndexes vm !! doc = Some k →
     score = row_dot (itemFactorsY vm) k userVec).

(** The seen documents rank last: no unseen document comes after a seen
    one. *)
Definition seen_rank_last (seenDocs : gmap Z bool) (recs : list DocumentScore) : Prop :=
  ∀ (before : list DocumentScore) seen after,
    recs = (before ++ seen :: after)%list → is_Some (seenDocs !! DocumentID seen) →
    Forall (λ ds, is_Some (seenDocs !! DocumentID ds)) after.

(** [unsafeSymmetric.Symmetric]: the order the wrapper reports. *)
Definition Symmetric_ (s : Symmetric) : nat := sym_order s.

(** No later score is greater than an earlier one. *)
Definition descending (scores : list F) : Prop :=
  StronglySorted (λ earlier later, fgt later earlier = false) scores.

End vectormodel.

(** ** An executable instance: IEEE binary64, insertion sort, LAPACK *)

(** Ranging in the order of [map_to_list]. *)
Definition range_map_to_list : MapRange := λ V m, map_to_list m.

(** Ranging in the opposite order. *)
Definition range_reversed : MapRange := λ V m, rev (map_to_list m).

(** [sort.Sort] on short slices. *)
Definition sort_insertion : SortPkg := λ A less a, insertionSort less a.

Module lapack.
Import PrimFloat.
Local Open Scope float_scope.
Local Open Scope list_scope.

(** The upper Cholesky factor U of a symmetric matrix (A = Uᵀ·U), row by
    row as LAPACK's unblocked [Dpotf2] computes it from the upper
    triangle; [us] are the rows already computed. *)
Definition potf2_row (a : nat → nat → float) (n : nat) (us : list (list float)) (j : nat)
  : option (list float) :=
  let ajj := a j j - foldl (λ acc u, acc + nth j u 0 * nth j u 0) 0 us in
  if (ajj <=? 0) || negb (ajj =? ajj) then None
  else
    let ajj := sqrt ajj in
    Some ((λ i,
             if (i <? j)%nat then 0
             else if (i =? j)%nat then ajj
             else foldl (λ acc u, acc + (- nth j u 0) * nth i u 0) (a j i) us * (1 / ajj))
          <$> seq 0 n).

Definition potf2 (a : nat → nat → float) (n : nat) : option (list (list float)) :=
  foldl (λ acc j, us ← acc; u ← potf2_row a n us j; Some (us ++ [u])) (Some []) (seq 0 n).

(** Uᵀ·y = b by forward substitution. *)
Definition trsv_trans (u : list (list float)) (b : list float) : list float :=
  foldl (λ ys k,
           ys ++ [foldl (λ acc i, acc + (- nth k (nth i u []) 0) * nth i ys 0)
                    (nth k b 0) (seq 0 k) * (1 / nth k (nth k u []) 0)])
        [] (seq 0 (length b)).

(** U·x = y by back substitution; [xs] holds x(k+1), ..., x(n-1). *)
Definition trsv (u : list (list float)) (y : list float) : list float :=
  let n := length y in
  foldl (λ xs k,
           (foldl (λ acc i, acc + (- nth i (nth k u []) 0) * nth (i - S k) xs 0)
              (nth k y 0) (seq (S k) (n - S k)) * (1 / nth k (nth k u []) 0)) :: xs)
        [] (rev (seq 0 n)).

(** [Cholesky.Factorize] and [Cholesky.SolveVec] through [Dpotrf] and
    [Dpotrs], without the condition estimate: no [mat.Condition] error is
    reported. *)
Definition cholesky_binary64 : @CholeskyPkg binary64 := {|
  Cholesky := list (list float);
  Factorize := λ s, potf2 (@at0 binary64 (sym_matrix s)) (sym_order s);
  SolveVec := λ u b,
    if decide (length b = length u) then Ret (trsv u (trsv_trans u b), None)
    else Panic "mat: dimension mismatch";
|}.

End lapack.

(** ** Exact arithmetic *)

Module exact.
Local Open Scope list_scope.

(** The integers as numbers: every operation is exact. *)
Definition integers : Float64 := {|
  F := Z;
  fzero := 0%Z;
  fone := 1%Z;
  fadd := Z.add;
  fsub := Z.sub;
  fmul := Z.mul;
  fopp := Z.opp;
  fgt := Z.gtb;
|}.





(** A model on the integers: document 1 with the factors (1, 1),
    document 2 with the factors (0, 1), confidence 3, no
    regularization, as [NewVectorModel] builds it when the documents are
    visited in the order 2, 1. *)
Definition documents : gmap Z (list Z) := <[1%Z := [1; 1]%Z]> {[2%Z := [0; 1]%Z]}.

Definition vm : @VectorModel integers :=
  @mkVectorModel integers 3%Z 0%Z [2; 1]%Z
    (<[1%Z := 1]> {[2%Z := 0]}) 2
    (@mkDense integers 2 2 [0; 1; 1; 1]%Z)
    (@mkDense integers 2 2 [1; 1; 1; 2]%Z).

End exact.

#[export] Existing Instances binary64 range_map_to_list sort_insertion lapack.cholesky_binary64 | 100.

(** A small model on that instance: document 1 with factor 1, document 2
    with factor −6, confidence 27.5 and regularization 0.5, as
    [NewVectorModel] builds it when the documents are visited in the order
    2, 1.  The user has seen document 1; the caller's candidate slice
    holds a duplicate and the unknown document 7. *)
Definition fixture_documents : gmap Z (list float) :=
  <[1%Z := [1%float]]> {[2%Z := [(-6)%float]]}.

Definition fixture_vm : @VectorModel binary64 :=
  @mkVectorModel binary64 27.5%float 0.5%float [2; 1]%Z
    (<[1%Z := 1]> {[2%Z := 0]}) 1
    (@mkDense binary64 2 1 [(-6)%float; 1%float])
    (@mkDense binary64 1 1 [37%float]).

Definition fixture_score (doc : Z) (score : float) : @DocumentScore binary64 :=
  @mkDocumentScore binary64 doc score.

Definition fixture_seen : gmap Z bool := {[1%Z := true]}.

Definition fixture_heap : @heap binary64 := mkHeap fixture_vm [2; 7; 1; 2]%Z.

(** * Properties *)

Local Close Scope string_scope.

(** ** The runtime instances meet their contracts *)

Section runtime.
Context {A : Type} (less : A → A → bool).

Lemma ins_Permutation x r : ins less x r ≡ₚ x :: r.
Proof.
  induction r as [|y r IH]; simpl; [done|].
  destruct (less x y); [|done].
  rewrite IH. apply perm_swap.
Qed.

Lemma insertionSort_Permutation a : insertionSort less a ≡ₚ a.
Proof.
  unfold insertionSort. rewrite <- Permutation_rev.
  assert (∀ acc, foldl (λ rp x, ins less x rp) acc a ≡ₚ a ++ acc) as Hgen.
  { induction a as [|x a IH]; intros acc; simpl; [done|].
    rewrite IH, ins_Permutation. by rewrite Permutation_middle. }
  rewrite Hgen. by rewrite app_nil_r.
Qed.

Lemma ins_sorted a x r :
  strict_weak_on less a → x ∈ a → (∀ y, y ∈ r → y ∈ a) →
  StronglySorted (λ u v, less u v = false) r →
  StronglySorted (λ u v, less u v = false) (ins less x r).
Proof.
  intros (Hirr & Htr & Hneg) Hx. induction r as [|y r IH]; intros Hr Hs; simpl.
  - repeat constructor.
  - apply StronglySorted_inv in Hs as [Hs Hy].
    assert (y ∈ a) as Hya by (apply Hr; left).
    destruct (less x y) eqn:Hxy.
    + constructor.
      * apply IH; [|done]. intros z Hz. apply Hr. by right.
      * apply Forall_forall. intros z Hz.
        rewrite ins_Permutation in Hz.
        apply elem_of_cons in Hz as [->|Hz].
        -- destruct (less y x) eqn:Hyx; [|done].
           pose proof (Htr x y x Hx Hya Hx Hxy Hyx) as Hxx.
           by rewrite (Hirr x Hx) in Hxx.
        -- rewrite Forall_forall in Hy. by apply Hy.
    + constructor; [by constructor|].
      constructor; [done|].
      apply Forall_forall. intros z Hz. rewrite Forall_forall in Hy.
      apply (Hneg x y z); [done|done| |done|by apply Hy].
      apply Hr. by right.
Qed.

Lemma StronglySorted_rev_flip (R : A → A → Prop) l :
  StronglySorted R l → StronglySorted (λ u v, R v u) (rev l).
Proof.
  induction 1 as [|x l Hs IH Hx]; simpl; [constructor|].
  apply StronglySorted_app_2; [|done|repeat constructor].
  intros u v Hu Hv. apply list_elem_of_singleton in Hv as ->.
  rewrite Forall_forall in Hx. apply Hx.
  apply list_elem_of_In. apply in_rev. by apply list_elem_of_In.
Qed.

Lemma insertionSort_sorted a :
  strict_weak_on less a →
  StronglySorted (λ u v, less v u = false) (insertionSort less a).
Proof.
  intros Hswo. unfold insertionSort. apply StronglySorted_rev_flip.
  assert (∀ rest acc, (∀ y, y ∈ rest → y ∈ a) → (∀ y, y ∈ acc → y ∈ a) →
            StronglySorted (λ u v, less u v = false) acc →
            StronglySorted (λ u v, less u v = false)
              (foldl (λ rp x, ins less x rp) acc rest)) as Hgen.
  { induction rest as [|x rest IH]; intros acc Hrest Hacc Hs; simpl; [done|].
    apply IH.
    - intros y Hy. apply Hrest. by right.
    - intros y Hy. rewrite ins_Permutation in Hy.
      apply elem_of_cons in Hy as [->|Hy]; [apply Hrest; left|by apply Hacc].
    - apply (ins_sorted a); [done|apply Hrest; left|done|done]. }
  apply Hgen; [done| |constructor]. intros y Hy. by apply elem_of_nil in Hy.
Qed.

Lemma strict_weak_on_incl l l' :
  (∀ x, x ∈ l' → x ∈ l) → strict_weak_on less l → strict_weak_on less l'.
Proof.
  intros Hin (Hirr & Htr & Hneg). split; [|split].
  - intros x Hx. apply Hirr. by apply Hin.
  - intros x y z Hx Hy Hz. apply Htr; by apply Hin.
  - intros x y z Hx Hy Hz. apply Hneg; by apply Hin.
Qed.

Lemma strict_weak_onb_correct l : strict_weak_onb less l = true → strict_weak_on less l.
Proof.
  unfold strict_weak_onb. rewrite andb_true_iff, !forallb_forall.
  intros [Hirr Hall]. split; [|split].
  - intros x Hx. apply list_elem_of_In, Hirr in Hx. by destruct (less x x).
  - intros x y z Hx Hy Hz Hxy Hyz.
    apply list_elem_of_In in Hx, Hy, Hz.
    pose proof (Hall x Hx) as Hall'. rewrite forallb_forall in Hall'.
    specialize (Hall' y Hy). rewrite forallb_forall in Hall'.
    specialize (Hall' z Hz). rewrite Hxy, Hyz in Hall'.
    by destruct (less x z).
  - intros x y z Hx Hy Hz Hxy Hyz.
    apply list_elem_of_In in Hx, Hy, Hz.
    pose proof (Hall x Hx) as Hall'. rewrite forallb_forall in Hall'.
    specialize (Hall' y Hy). rewrite forallb_forall in Hall'.
    specialize (Hall' z Hz). rewrite Hxy, Hyz in Hall'.
    by destruct (less x z).
Qed.

End runtime.

Lemma sort_insertion_permutes : @sort_permutes sort_insertion.
Proof. intros A less a. apply insertionSort_Permutation. Qed.

Lemma sort_insertion_sorts : @sort_sorts sort_insertion.
Proof. intros A less a. apply insertionSort_sorted. Qed.

Lemma range_reversed_spec : @range_spec range_reversed.
Proof. intros V m. unfold range, range_reversed. by rewrite <- Permutation_rev. Qed.

Lemma range_map_to_list_spec : @range_spec range_map_to_list.
Proof. by intros V m. Qed.

(** ** Loops *)

Lemma int_mul_range (x y : Z) : (- 2 ^ 63 ≤ int_mul x y ≤ max_int)%Z.
Proof.
  unfold max_int, int_mul.
  change (2 ^ 63)%Z with 9223372036854775808%Z.
  change (2 ^ 64)%Z with 18446744073709551616%Z.
  pose proof (Z.mod_pos_bound (x * y + 9223372036854775808) 18446744073709551616).
  lia.
Qed.

Lemma int_mul_fits (x y : Z) :
  (0 ≤ x * y ≤ max_int)%Z → int_mul x y = (x * y)%Z.
Proof.
  unfold max_int, int_mul. intros Hxy.
  change (2 ^ 63)%Z with 9223372036854775808%Z in *.
  change (2 ^ 64)%Z with 18446744073709551616%Z.
  rewrite Z.mod_small by lia. lia.
Qed.

Lemma make_slice_length {A} (n : nat) (zero : A) :
  make_slice (Z.of_nat n) zero = Ret (replicate n zero).
Proof. unfold make_slice. rewrite decide_True by lia. by rewrite Nat2Z.id. Qed.

Lemma bind_Ret {A B} (a : A) (f : A → outcome B) : Ret a ≫= f = f a.
Proof. done. Qed.

Lemma foldlM_cons {A B} (f : B → A → outcome B) x l b :
  foldlM f (x :: l) b = f b x ≫= foldlM f l.
Proof. done. Qed.

Lemma foldlM_app {A B} (f : B → A → outcome B) (l k : list A) (b : B) :
  foldlM f (l ++ k) b = foldlM f l b ≫= foldlM f k.
Proof.
  revert b. induction l as [|x l IH]; intros b; simpl; [done|].
  destruct (f b x) as [b'|msg]; simpl; [apply IH|done].
Qed.

Lemma forM_Forall2 {A B} (f : A → outcome B) (l : list A) (ys : list B) :
  forM f l = Ret ys ↔ Forall2 (λ x y, f x = Ret y) l ys.
Proof.
  revert ys. induction l as [|x l IH]; intros ys; simpl.
  - split; [intros [= <-]; constructor|by inversion 1].
  - split.
    + destruct (f x) as [y|] eqn:Hy; simpl; [|done].
      destruct (forM f l) as [ys'|] eqn:Hys; simpl; [|done].
      intros [= <-]. constructor; [done|]. by apply IH.
    + inversion 1 as [|? y ? ys' Hy Hys]; subst. rewrite Hy. simpl.
      apply IH in Hys. by rewrite Hys.
Qed.

(** ** Matrices *)

Section matrices.
Context `{Float64}.

Lemma lookup_concat_uniform {A} (ls : list (list A)) (c i j : nat) :
  Forall (λ r, length r = c) ls → j < c →
  concat ls !! (i * c + j) = ls !! i ≫= (.!! j).
Proof.
  intros Hls Hj. revert i. induction Hls as [|r ls Hr _ IH]; intros i; simpl.
  - by rewrite !lookup_nil.
  - destruct i as [|i]; simpl.
    + rewrite lookup_app_l by lia. done.
    + rewrite lookup_app_r by lia.
      replace (c + i * c + j - length r) with (i * c + j) by lia. apply IH.
Qed.

Lemma tabulate_rows r c f : rows (tabulate r c f) = r.
Proof. done. Qed.

Lemma tabulate_cols r c f : cols (tabulate r c f) = c.
Proof. done. Qed.

Lemma concat_uniform_length {A} (ls : list (list A)) (c : nat) :
  Forall (λ r, length r = c) ls → length (concat ls) = length ls * c.
Proof.
  induction 1 as [|r ls Hr _ IH]; simpl; [done|].
  rewrite length_app. lia.
Qed.

Lemma tabulate_uniform r c (f : nat → nat → F) :
  Forall (λ row, length row = c) ((λ i, f i <$> seq 0 c) <$> seq 0 r).
Proof.
  apply Forall_fmap, Forall_forall. intros i _. simpl.
  by rewrite length_fmap, length_seq.
Qed.

Lemma tabulate_data_length r c f : length (data (tabulate r c f)) = r * c.
Proof.
  simpl. rewrite (concat_uniform_length _ c) by apply tabulate_uniform.
  by rewrite length_fmap, length_seq.
Qed.

Lemma at0_tabulate r c f i j :
  i < r → j < c → at0 (tabulate r c f) i j = f i j.
Proof.
  intros Hi Hj. unfold at0. rewrite nth_lookup. simpl.
  rewrite lookup_concat_uniform by (apply tabulate_uniform || done).
  rewrite list_lookup_fmap, lookup_seq_lt by done. simpl.
  rewrite list_lookup_fmap, lookup_seq_lt by done. done.
Qed.

Lemma tabulate_ext r c f g :
  (∀ i j, i < r → j < c → f i j = g i j) → tabulate r c f = tabulate r c g.
Proof.
  intros Hfg. unfold tabulate. f_equal. f_equal.
  apply list_eq. intros i. rewrite !list_lookup_fmap.
  destruct (seq 0 r !! i) as [i'|] eqn:Hi; [|done]. simpl. f_equal.
  apply lookup_seq in Hi as [-> Hi].
  apply list_eq. intros j. rewrite !list_lookup_fmap.
  destruct (seq 0 c !! j) as [j'|] eqn:Hj; [|done]. simpl. f_equal.
  apply lookup_seq in Hj as [-> Hj]. by apply Hfg.
Qed.

(** A matrix whose data has the length its shape says is the table of its
    elements. *)
Lemma tabulate_at0 m :
  length (data m) = rows m * cols m → tabulate (rows m) (cols m) (at0 m) = m.
Proof.
  destruct m as [r c d]. simpl. intros Hd. unfold tabulate. f_equal.
  apply list_eq. intros p.
  destruct (decide (p < r * c)) as [Hp|Hp].
  - assert (0 < c) as Hc by nia.
    rewrite (Nat.div_mod_eq p c) at 1. rewrite (Nat.mul_comm c).
    assert (p `div` c < r) as Hq by (apply Nat.Div0.div_lt_upper_bound; nia).
    assert (p `mod` c < c) as Hr by (apply Nat.mod_upper_bound; lia).
    rewrite lookup_concat_uniform by (apply tabulate_uniform || done).
    rewrite list_lookup_fmap, lookup_seq_lt by done. simpl.
    rewrite list_lookup_fmap, lookup_seq_lt by done. simpl.
    unfold at0. simpl. rewrite nth_lookup.
    rewrite (Nat.mul_comm _ c), <- Nat.div_mod_eq.
    destruct (d !! p) eqn:Hdp; [done|]. apply lookup_ge_None in Hdp. lia.
  - rewrite !lookup_ge_None_2; [done|lia|].
    rewrite (concat_uniform_length _ c) by apply tabulate_uniform.
    rewrite length_fmap, length_seq. lia.
Qed.

Lemma T_rows m : rows (T m) = cols m.
Proof. done. Qed.

Lemma T_cols m : cols (T m) = rows m.
Proof. done. Qed.

Lemma at0_T m i j : i < cols m → j < rows m → at0 (T m) i j = at0 m j i.
Proof. intros. unfold T. by rewrite at0_tabulate. Qed.

(** The row that [RowView] returns holds the elements of that row. *)
Lemma RowView_spec m i :
  length (data m) = rows m * cols m → i < rows m →
  ∃ v, RowView m i = Ret v ∧ length v = cols m ∧
       ∀ j, j < cols m → nth j v fzero = at0 m i j.
Proof.
  intros Hd Hi. unfold RowView. rewrite decide_True by done.
  eexists. split; [done|]. split.
  - rewrite length_take, length_drop. nia.
  - intros j Hj. unfold at0. rewrite !nth_lookup.
    rewrite lookup_take_lt by done. by rewrite lookup_drop.
Qed.

Lemma eye_data_length n (v : F) k :
  length (foldl (λ d q, <[q * n + q := v]> d) (replicate (n * n) fzero) (seq 0 k))
  = n * n.
Proof.
  induction k as [|k IH]; [simpl; by rewrite length_replicate|].
  rewrite seq_S, foldl_app. simpl. by rewrite length_insert.
Qed.

Lemma eye_data_lookup n v k i j :
  k ≤ n → i < n → j < n →
  foldl (λ d q, <[q * n + q := v]> d) (replicate (n * n) fzero) (seq 0 k) !! (i * n + j)
  = Some (if decide (i = j ∧ i < k) then v else fzero).
Proof.
  intros Hk Hi Hj. induction k as [|k IH].
  - simpl. rewrite lookup_replicate_2 by nia.
    by rewrite decide_False by lia.
  - rewrite seq_S, foldl_app. simpl.
    pose proof (eye_data_length n v k) as Hlen.
    destruct (decide (i = k ∧ j = k)) as [[-> ->]|Hne].
    + rewrite list_lookup_insert_eq by (rewrite Hlen; nia).
      by rewrite decide_True by lia.
    + rewrite list_lookup_insert_ne.
      2:{ destruct (decide (i = k)) as [->|Hik]; [lia|].
          destruct (decide (i < k)).
          - pose proof (Nat.mul_le_mono_r (S i) k n). lia.
          - pose proof (Nat.mul_le_mono_r (S k) i n). lia. }
      rewrite IH by lia. f_equal.
      destruct (decide (i = j ∧ i < k)), (decide (i = j ∧ i < S k)); done || lia.
Qed.

Lemma NewDense_fits (r c : nat) (data : list F) :
  0 < r → 0 < c → (Z.of_nat r * Z.of_nat c ≤ max_int)%Z → length data = r * c →
  NewDense (Z.of_nat r) (Z.of_nat c) data = Ret (mkDense r c data).
Proof.
  intros Hr Hc Hfits Hlen. unfold NewDense.
  rewrite decide_False by lia.
  rewrite int_mul_fits, decide_True by lia.
  by rewrite !Nat2Z.id.
Qed.

Lemma eye_spec (n : nat) v :
  0 < n → (Z.of_nat n * Z.of_nat n ≤ max_int)%Z →
  eye (Z.of_nat n) v = Ret (tabulate n n (λ i j, if decide (i = j) then v else fzero)).
Proof.
  intros Hn Hfits. unfold eye.
  rewrite int_mul_fits, <- Nat2Z.inj_mul, make_slice_length, bind_Ret by lia.
  rewrite NewDense_fits, bind_Ret, Nat2Z.id by (done || by rewrite length_replicate).
  assert (∀ k, k ≤ n →
    foldlM (λ m i, Set_ m i i v) (seq 0 k) (mkDense n n (replicate (n * n) fzero))
    = Ret (mkDense n n (foldl (λ d q, <[q * n + q := v]> d)
                          (replicate (n * n) fzero) (seq 0 k)))) as Hloop.
  { induction k as [|k IH]; intros Hk; [done|].
    rewrite seq_S, foldlM_app, IH by lia. simpl.
    unfold Set_, assign. simpl. rewrite !decide_True by lia.
    rewrite decide_True by (rewrite eye_data_length; nia). simpl.
    by rewrite foldl_app. }
  rewrite Hloop by done. f_equal.
  set (m := mkDense n n _).
  assert (length (data m) = rows m * cols m) as Hlen.
  { apply eye_data_length. }
  rewrite <- (tabulate_at0 m Hlen). simpl.
  apply tabulate_ext. intros i j Hi Hj.
  unfold at0. simpl. rewrite nth_lookup.
  rewrite eye_data_lookup by done. simpl.
  destruct (decide (i = j ∧ i < n)), (decide (i = j)); done || lia.
Qed.

(** The outer product of a vector with itself, as [userVector] forms it. *)
Lemma outer_spec (f : VecDense) :
  0 < length f → (Z.of_nat (length f) * Z.of_nat (length f) ≤ max_int)%Z →
  Mul (column f) (T (column f))
  = Ret (tabulate (length f) (length f)
           (λ i j, sum [fmul (nth i f fzero) (nth j f fzero)])).
Proof.
  intros Hf Hfits. unfold Mul. rewrite decide_True by done.
  rewrite T_cols. cbn [rows cols column].
  rewrite decide_False, decide_True by (done || lia).
  f_equal.
  apply tabulate_ext. intros i j Hi Hj. simpl. do 3 f_equal.
  - unfold at0. simpl. f_equal. lia.
  - rewrite at0_T by (simpl; lia). unfold at0. simpl. f_equal. lia.
Qed.

Lemma Add_spec a b :
  rows a = rows b → cols a = cols b →
  Add a b = Ret (tabulate (rows a) (cols a) (λ i j, fadd (at0 a i j) (at0 b i j))).
Proof. intros. unfold Add. by rewrite decide_True. Qed.

Lemma zip_with_tabulated {A B C} (g : A → B → C) (a : nat → A) (v : list B) (d : B) n :
  length v = n →
  zip_with g (a <$> seq 0 n) v = (λ i, g (a i) (nth i v d)) <$> seq 0 n.
Proof.
  intros Hv. apply list_eq. intros i.
  rewrite lookup_zip_with, !list_lookup_fmap.
  destruct (decide (i < n)) as [Hi|Hi].
  - rewrite lookup_seq_lt by done. simpl. rewrite nth_lookup.
    destruct (v !! i) eqn:Hvi; [done|]. apply lookup_ge_None in Hvi. lia.
  - by rewrite lookup_seq_ge by lia.
Qed.

End matrices.

(** ** The user-vector solver *)

Section solver.
Context `{Float64} `{MapRange} `{!CholeskyPkg}.

Lemma well_formed_index_lt vm doc k :
  well_formed vm → docIndexes vm !! doc = Some k → k < rows (itemFactorsY vm).
Proof.
  intros Hwf Hk. rewrite (wf_rows vm Hwf).
  apply (wf_index vm Hwf) in Hk. by apply lookup_lt_Some in Hk.
Qed.

Lemma replicate_tabulated {A} (x : A) n : replicate n x = (λ _, x) <$> seq 0 n.
Proof.
  apply list_eq. intros i. rewrite list_lookup_fmap.
  destruct (decide (i < n)).
  - rewrite lookup_replicate_2, lookup_seq_lt by done. done.
  - rewrite lookup_seq_ge by lia.
    apply lookup_replicate_None. lia.
Qed.

(** One iteration over a document of the model adds its rank-one update
    to A and its scaled factor row to b. *)
Lemma userVector_body_found vm a b doc c k :
  well_formed vm → docIndexes vm !! doc = Some k →
  let n := nFactors vm in
  let Y := itemFactorsY vm in
  userVector_body vm (tabulate n n a, b <$> seq 0 n) (doc, c)
  = Ret (tabulate n n (λ i j,
           fadd (a i j) (fmul (fsub c fone) (sum [fmul (at0 Y k i) (at0 Y k j)]))),
         (λ i, fadd (b i) (fmul c (at0 Y k i))) <$> seq 0 n).
Proof.
  intros Hwf Hk. cbv zeta. unfold userVector_body. rewrite Hk.
  destruct (RowView_spec (itemFactorsY vm) k (wf_data vm Hwf)
              (well_formed_index_lt vm doc k Hwf Hk)) as (v & -> & Hlen & Hv).
  rewrite (wf_cols vm Hwf) in Hlen, Hv.
  pose proof (wf_factors vm Hwf) as Hpos. pose proof (wf_fits vm Hwf) as Hfits.
  set (n := nFactors vm) in *.
  rewrite bind_Ret, outer_spec, Hlen, bind_Ret by (by rewrite Hlen).
  rewrite Add_spec by done. rewrite bind_Ret.
  unfold AddScaledVec. rewrite decide_True by (by rewrite length_fmap, length_seq).
  rewrite bind_Ret, !tabulate_rows, !tabulate_cols. f_equal. f_equal.
  - apply tabulate_ext. intros i j Hi Hj.
    rewrite at0_tabulate by done. f_equal.
    unfold Scale. simpl. rewrite !at0_tabulate by done.
    by rewrite !Hv by done.
  - rewrite (zip_with_tabulated _ _ _ fzero) by done.
    apply list_eq. intros i. rewrite !list_lookup_fmap.
    destruct (seq 0 n !! i) as [i'|] eqn:Hi; [|done]. simpl.
    apply lookup_seq in Hi as [-> Hi]. by rewrite Hv.
Qed.

(** A document that is not in the model is skipped. *)
Lemma userVector_body_missing vm Ab doc c :
  docIndexes vm !! doc = None → userVector_body vm Ab (doc, c) = Ret Ab.
Proof. intros Hk. destruct Ab as [A b]. unfold userVector_body. by rewrite Hk. Qed.

Lemma userVector_loop vm entries :
  well_formed vm →
  let n := nFactors vm in
  ∀ a b,
    foldlM (userVector_body vm) entries (tabulate n n a, b <$> seq 0 n)
    = Ret (tabulate n n (λ i j,
             foldl (λ acc entry,
                      match docIndexes vm !! entry.1 with
                      | Some k =>
                          fadd acc (fmul (fsub entry.2 fone)
                                      (sum [fmul (at0 (itemFactorsY vm) k i)
                                                 (at0 (itemFactorsY vm) k j)]))
                      | None => acc
                      end) (a i j) entries),
           (λ i,
              foldl (λ acc entry,
                       match docIndexes vm !! entry.1 with
                       | Some k => fadd acc (fmul entry.2 (at0 (itemFactorsY vm) k i))
                       | None => acc
                       end) (b i) entries) <$> seq 0 n).
Proof.
  intros Hwf. cbv zeta.
  induction entries as [|[doc c] entries IH]; intros a b; [done|].
  rewrite foldlM_cons. destruct (docIndexes vm !! doc) as [k|] eqn:Hk.
  - rewrite (userVector_body_found vm a b doc c k Hwf Hk), bind_Ret.
    rewrite IH. simpl. by rewrite Hk.
  - rewrite (userVector_body_missing vm _ doc c Hk), bind_Ret.
    rewrite IH. simpl. by rewrite Hk.
Qed.

(** What [userVector] hands to the Cholesky solver, and what it returns. *)
Lemma userVector_unfold vm (cm : gmap Z F) :
  well_formed vm →
  let n := nFactors vm in
  let A := tabulate n n (system_A vm (range cm)) in
  let b := system_b vm (range cm) <$> seq 0 n in
  userVector vm cm
  = match Factorize (unsafeSymmetric A n) with
    | None => Ret ([], Some SingularSystem)
    | Some ch => r ← SolveVec ch b; Ret (r.1, option_map Condition r.2)
    end.
Proof.
  intros Hwf. cbv zeta. unfold userVector.
  rewrite eye_spec, bind_Ret by (apply (wf_factors vm Hwf) || apply (wf_fits vm Hwf)).
  rewrite Add_spec by (by rewrite (wf_gram vm Hwf)).
  rewrite bind_Ret. unfold NewVecDense.
  rewrite decide_True by (by rewrite length_replicate).
  rewrite bind_Ret. rewrite (wf_gram vm Hwf) at 1 2.
  rewrite tabulate_rows, tabulate_cols, replicate_tabulated.
  rewrite (tabulate_ext (nFactors vm) (nFactors vm) _
             (λ i j, fadd (at0 (squaredItemFactorsYtY vm) i j)
                       (if decide (i = j) then regularization vm else fzero))).
  2:{ intros i j Hi Hj. by rewrite (at0_tabulate _ _ (λ i j, if decide (i = j) then _ else _)). }
  rewrite (userVector_loop vm (range cm) Hwf), bind_Ret. done.
Qed.

End solver.

(** ** Construction *)

Section construction.
Context `{Float64} `{MapRange}.

Lemma loop_invariant_init N c r Y G :
  loop_invariant N c r [] (mkLoop (mkVectorModel c r (replicate N 0%Z) ∅ 0 Y G) [] 0).
Proof.
  split; simpl; rewrite ?Nat.sub_0_r; try done.
Qed.

Lemma snoc_index_lookup (ids : list Z) (idx : gmap Z nat) doc :
  (∀ d k, idx !! d = Some k ↔ ids !! k = Some d) → doc ∉ ids →
  ∀ d k, <[doc := length ids]> idx !! d = Some k ↔ (ids ++ [doc]) !! k = Some d.
Proof.
  intros Hidx Hdoc d k. destruct (decide (d = doc)) as [->|Hne].
  - rewrite lookup_insert_eq. split.
    + intros [= <-]. by rewrite lookup_app_r, Nat.sub_diag by lia.
    + intros Hk. destruct (decide (k < length ids)) as [Hlt|Hge].
      * rewrite lookup_app_l in Hk by done.
        destruct Hdoc. by eapply list_elem_of_lookup_2.
      * apply lookup_lt_Some in Hk as Hk'. rewrite length_app in Hk'. simpl in Hk'.
        f_equal. lia.
  - rewrite lookup_insert_ne by done. rewrite Hidx. split.
    + intros Hk. by apply lookup_app_l_Some.
    + intros Hk. apply lookup_app_Some in Hk as [Hk|[_ Hk]]; [done|].
      apply list_lookup_singleton_Some in Hk as [_ ?]. done.
Qed.

(** An iteration over a vector of the right length extends the model by
    one document. *)
Lemma NewVectorModel_body_ok N c r pre st doc vector :
  loop_invariant N c r pre st → doc ∉ pre.*1 → length pre < N →
  (pre = [] ∨ length vector = nFactors (l_vm st)) →
  ∃ st', NewVectorModel_body st (doc, vector) = Ret (inr st') ∧
         loop_invariant N c r (pre ++ [(doc, vector)]) st'.
Proof.
  intros [Hi Hdata Hc Hr Hids Hidx HnF Huni] Hdoc HN Hlen.
  assert (<[length pre := doc]> (pre.*1 ++ replicate (N - length pre) 0%Z)
          = (pre ++ [(doc, vector)]).*1 ++ replicate (N - length (pre ++ [(doc, vector)])) 0%Z)
    as Hins.
  { rewrite insert_app_r_alt by (by rewrite length_fmap).
    rewrite length_fmap, Nat.sub_diag, fmap_app, <- app_assoc, length_app. simpl.
    replace (N - length pre) with (S (N - (length pre + 1))) by lia. done. }
  assert (length pre < length (pre.*1 ++ replicate (N - length pre) 0%Z)) as Hlt.
  { rewrite length_app, length_fmap, length_replicate. lia. }
  unfold NewVectorModel_body. rewrite Hi.
  destruct pre as [|e0 pre'].
  - rewrite decide_True by done.
    unfold assign. simpl docIDs. rewrite Hids, decide_True by done.
    eexists. split; [done|].
    split; cbn [l_i l_data l_vm confidence regularization docIDs docIndexes
                nFactors set_docIDs set_docIndexes set_nFactors].
    + done.
    + rewrite Hdata. simpl. by rewrite app_nil_r.
    + done.
    + done.
    + apply Hins.
    + intros d k. by apply (snoc_index_lookup []).
    + done.
    + by repeat constructor.
  - destruct Hlen as [?|Hlen]; [done|].
    rewrite decide_False by (simpl; lia).
    rewrite decide_False by (intros Hn; by apply Hn).
    unfold assign. simpl docIDs. rewrite Hids, decide_True by done.
    eexists. split; [done|].
    split; cbn [l_i l_data l_vm confidence regularization docIDs docIndexes
                nFactors set_docIDs set_docIndexes set_nFactors].
    + rewrite length_app. simpl. lia.
    + rewrite Hdata, fmap_app, concat_app. simpl. by rewrite app_nil_r.
    + done.
    + done.
    + apply Hins.
    + intros d k. rewrite fmap_app, <- (length_fmap fst (e0 :: pre')).
      by apply snoc_index_lookup.
    + by rewrite HnF.
    + apply Forall_app. split; [done|]. by repeat constructor.
Qed.

(** An iteration over a vector of another length returns the error. *)
Lemma NewVectorModel_body_mismatch N c r pre st doc vector :
  loop_invariant N c r pre st → pre ≠ [] → length vector ≠ nFactors (l_vm st) →
  NewVectorModel_body st (doc, vector) = Ret (inl InvalidDimension).
Proof.
  intros Hinv Hpre Hlen. unfold NewVectorModel_body. rewrite (li_i _ _ _ _ _ Hinv).
  rewrite decide_False by (destruct pre; simpl; done || lia).
  by rewrite decide_True.
Qed.

Lemma for_range_cons {S R A} (body : S → A → outcome (R + S)) x l s :
  for_range body (x :: l) s
  = body s x ≫= λ r, match r with inl v => Ret (inl v) | inr s' => for_range body l s' end.
Proof. done. Qed.

(** The loop either visits every entry, or stops at a vector whose length
    differs from the first one's. *)
Lemma NewVectorModel_loop N c r rest :
  ∀ pre st,
    loop_invariant N c r pre st → NoDup ((pre ++ rest).*1) → length (pre ++ rest) ≤ N →
    (∃ st', for_range NewVectorModel_body rest st = Ret (inr st') ∧
            loop_invariant N c r (pre ++ rest) st')
    ∨ (for_range NewVectorModel_body rest st = Ret (inl InvalidDimension) ∧
       ∃ e1 e2, e1 ∈ pre ++ rest ∧ e2 ∈ pre ++ rest ∧ length e1.2 ≠ length e2.2).
Proof.
  induction rest as [|[doc vector] rest IH]; intros pre st Hinv Hnd HN.
  - left. exists st. by rewrite app_nil_r.
  - rewrite for_range_cons.
    destruct (decide (pre = [] ∨ length vector = nFactors (l_vm st))) as [Hok|Hbad].
    + destruct (NewVectorModel_body_ok N c r pre st doc vector) as (st' & -> & Hinv');
        [done| | |done|].
      * rewrite fmap_app in Hnd. apply NoDup_app in Hnd as (_ & Hnd & _).
        intros Hin. apply (Hnd doc Hin). simpl. left.
      * rewrite length_app in HN. simpl in HN. lia.
      * rewrite bind_Ret. rewrite (cons_middle _ pre rest), app_assoc in Hnd, HN |- *.
        by apply IH.
    + right.
      assert (pre ≠ [] ∧ length vector ≠ nFactors (l_vm st)) as [Hpre Hlen]
        by (split; intros ?; apply Hbad; auto).
      rewrite (NewVectorModel_body_mismatch N c r pre st doc vector) by done.
      split; [done|].
      destruct pre as [|e0 pre']; [done|].
      exists e0, (doc, vector). split; [left|]. split.
      * apply elem_of_app. right. left.
      * rewrite (li_nFactors _ _ _ _ _ Hinv) in Hlen. simpl. congruence.
Qed.

Lemma range_NoDup {V} (m : gmap Z V) : range_spec → NoDup ((range m).*1).
Proof. intros Hr. rewrite (Hr V m). apply NoDup_fst_map_to_list. Qed.

Lemma range_length {V} (m : gmap Z V) : range_spec → length (range m) = size m.
Proof. intros Hr. rewrite (Hr V m). apply length_map_to_list. Qed.

Lemma range_elem_of {V} (m : gmap Z V) d v :
  range_spec → (d, v) ∈ range m ↔ m !! d = Some v.
Proof. intros Hr. rewrite (Hr V m). apply elem_of_map_to_list. Qed.

Lemma Mul_T_gram Y :
  0 < cols Y → (Z.of_nat (cols Y) * Z.of_nat (cols Y) ≤ max_int)%Z →
  Mul (T Y) Y = Ret (tabulate (cols Y) (cols Y) (gram Y)).
Proof.
  intros Hpos Hfits. unfold Mul. rewrite decide_True by done.
  rewrite T_rows, T_cols.
  rewrite decide_False, decide_True by (done || lia). f_equal.
  apply tabulate_ext. intros i j Hi Hj.
  unfold gram. f_equal. apply list_fmap_ext. intros ? k Hk.
  apply lookup_seq in Hk as [-> Hk]. simpl in Hk.
  by rewrite at0_T.
Qed.

(** [NewVectorModel] builds a well-formed model out of vectors of one
    positive length, reports two vectors of different lengths, or panics
    in the matrix library: with vectors of one length, when there is no
    document or no factor, and when a matrix would have more elements
    than an [int] counts. *)
Lemma NewVectorModel_cases (documents : gmap Z (list F)) (c r : F) :
  range_spec →
  let f := match range documents with [] => 0 | e :: _ => length e.2 end in
  let fits := (Z.of_nat (size documents) * Z.of_nat f ≤ max_int
               ∧ Z.of_nat f * Z.of_nat f ≤ max_int)%Z in
  (∃ vm, NewVectorModel documents c r = Ret (Some vm, None) ∧
         well_formed vm ∧ confidence vm = c ∧ regularization vm = r ∧
         docIDs vm = (range documents).*1 ∧
         rows (itemFactorsY vm) = size documents ∧
         data (itemFactorsY vm) = concat (range documents).*2 ∧
         Forall (λ e, length e.2 = nFactors vm) (range documents) ∧
         nFactors vm = f ∧ 0 < size documents ∧ fits)
  ∨ (NewVectorModel documents c r = Ret (None, Some InvalidDimension) ∧
     ∃ e1 e2, e1 ∈ range documents ∧ e2 ∈ range documents ∧ length e1.2 ≠ length e2.2)
  ∨ (Forall (λ e, length e.2 = f) (range documents) ∧
     ((size documents = 0 ∨ f = 0) ∧
      NewVectorModel documents c r = Panic "mat: zero length in matrix dimension"%string
      ∨ 0 < size documents ∧ 0 < f ∧ ¬ fits ∧
        ∃ msg, NewVectorModel documents c r = Panic msg)).
Proof.
  intros Hr. cbv zeta. unfold NewVectorModel.
  destruct (NewVectorModel_loop (size documents) c r (range documents) []
              (mkLoop (mkVectorModel c r (replicate (size documents) 0%Z) ∅ 0
                         (mkDense 0 0 []) (mkDense 0 0 [])) [] 0))
    as [(st & -> & Hinv)|(-> & Hdiff)].
  - apply loop_invariant_init.
  - by apply range_NoDup.
  - simpl. by rewrite range_length.
  - simpl in Hinv. destruct Hinv as [Hi Hdata Hc Hrg Hids Hidx HnF Huni].
    rewrite range_length, Nat.sub_diag in Hids by done. simpl in Hids.
    rewrite app_nil_r in Hids.
    rewrite bind_Ret, <- HnF.
    assert (length (l_data st) = size documents * nFactors (l_vm st)) as Hlen.
    { rewrite Hdata, (concat_uniform_length _ (nFactors (l_vm st))).
      - by rewrite length_fmap, range_length.
      - by apply Forall_fmap. }
    destruct (decide (size documents = 0 ∨ nFactors (l_vm st) = 0)) as [Hzero|Hpos].
    { right. right. split; [done|]. left. split; [done|].
      unfold NewDense. by rewrite !decide_True by lia. }
    destruct (decide (Z.of_nat (size documents) * Z.of_nat (nFactors (l_vm st))
                      ≤ max_int)%Z) as [HfitsY|HfitsY].
    2:{ right. right. split; [done|]. right.
        split; [lia|]. split; [lia|]. split; [by intros [? _]|].
        unfold NewDense. rewrite decide_False by lia.
        rewrite decide_False; [by eexists|].
        pose proof (int_mul_range (Z.of_nat (size documents))
                      (Z.of_nat (nFactors (l_vm st)))).
        rewrite Hlen. lia. }
    rewrite NewDense_fits, bind_Ret by (done || lia).
    cbn [itemFactorsY set_itemFactorsY].
    destruct (decide (Z.of_nat (nFactors (l_vm st)) * Z.of_nat (nFactors (l_vm st))
                      ≤ max_int)%Z) as [HfitsG|HfitsG].
    2:{ right. right. split; [done|]. right.
        split; [lia|]. split; [lia|]. split; [by intros [_ ?]|].
        unfold Mul. rewrite T_rows, T_cols. cbn [rows cols].
        rewrite decide_True by done. rewrite decide_False by lia.
        rewrite decide_False by done. by eexists. }
    left.
    rewrite Mul_T_gram, bind_Ret by (cbn [cols]; done || lia).
    eexists. split; [done|].
    cbn [rows cols data].
    split; [|repeat split; try done; try (by rewrite Hdata); lia].
    split; cbn [itemFactorsY squaredItemFactorsYtY docIDs docIndexes nFactors
                set_itemFactorsY set_squaredItemFactorsYtY rows cols data].
    + lia.
    + done.
    + by rewrite Hids, length_fmap, range_length.
    + done.
    + done.
    + intros doc i. by rewrite Hidx, Hids.
    + done.
  - right. left. by rewrite bind_Ret.
Qed.

End construction.

(** ** Scoring *)

Section scoring.
Context `{Float64} `{MapRange} `{SortPkg} `{!CholeskyPkg}.

Lemma confidenceMap_fold_lookup vm (l : list (Z * bool)) (acc : gmap Z F) d :
  foldl (λ confidenceMap entry,
           match docIndexes vm !! entry.1 with
           | Some _ => <[entry.1 := confidence vm]> confidenceMap
           | None => confidenceMap
           end) acc l !! d
  = if decide (d ∈ l.*1 ∧ is_Some (docIndexes vm !! d)) then Some (confidence vm)
    else acc !! d.
Proof.
  revert acc. induction l as [|[doc seen] l IH]; intros acc.
  - rewrite decide_False; [done|]. intros [Hin _]. by apply elem_of_nil in Hin.
  - etrans; [apply IH|]. rewrite fmap_cons. cbn [fst].
    destruct (decide (d ∈ l.*1 ∧ is_Some (docIndexes vm !! d))) as [[Hin Hd]|Hn].
    + rewrite decide_True; [done|]. split; [by right|done].
    + destruct (decide (d = doc)) as [->|Hne].
      * destruct (docIndexes vm !! doc) as [k|] eqn:Hk.
        -- rewrite lookup_insert_eq. rewrite decide_True; [done|]. split; [left|by eexists].
        -- rewrite decide_False; [done|]. intros [_ [? [=]]].
      * rewrite decide_False.
        -- destruct (docIndexes vm !! doc); [by rewrite lookup_insert_ne|done].
        -- intros [Hin Hd]. apply Hn. split; [|done].
           by apply elem_of_cons in Hin as [?|?].
Qed.

(** The confidence map holds exactly the seen documents that are in the
    ID index, each with the confidence of the model. *)
Lemma confidenceMap_lookup vm (seenDocs : gmap Z bool) d :
  range_spec →
  confidenceMap vm seenDocs !! d
  = match seenDocs !! d, docIndexes vm !! d with
    | Some _, Some _ => Some (confidence vm)
    | _, _ => None
    end.
Proof.
  intros Hr. unfold confidenceMap. rewrite confidenceMap_fold_lookup, lookup_empty.
  destruct (seenDocs !! d) as [b|] eqn:Hd.
  - apply (range_elem_of seenDocs d b Hr) in Hd.
    destruct (docIndexes vm !! d) as [k|] eqn:Hk.
    + rewrite decide_True; [done|]. split; [|by eexists].
      apply list_elem_of_fmap. by exists (d, b).
    + rewrite decide_False; [done|]. intros [_ [? [=]]].
  - rewrite decide_False; [done|]. intros [Hin _].
    apply list_elem_of_fmap in Hin as ([d' b] & -> & Hin).
    apply (range_elem_of seenDocs d' b Hr) in Hin. simpl in Hd. congruence.
Qed.

Lemma confidenceMap_size_0 vm (seenDocs : gmap Z bool) :
  range_spec →
  size (confidenceMap vm seenDocs) = 0
  ↔ ∀ d, is_Some (seenDocs !! d) → docIndexes vm !! d = None.
Proof.
  intros Hr. rewrite map_size_empty_iff, map_empty. split.
  - intros Hcm d [b Hd]. specialize (Hcm d).
    rewrite confidenceMap_lookup, Hd in Hcm by done.
    by destruct (docIndexes vm !! d).
  - intros Hnone d. rewrite confidenceMap_lookup by done.
    destruct (seenDocs !! d) as [b|] eqn:Hd; [|done].
    by rewrite (Hnone d) by (by eexists).
Qed.

(** The entries that [userVector] visits when [scoreCandidates] calls it:
    the seen documents of the model, each once, with the confidence of
    the model. *)
Lemma confidenceMap_entries vm (seenDocs : gmap Z bool) d c :
  range_spec →
  (d, c) ∈ range (confidenceMap vm seenDocs)
  ↔ is_Some (seenDocs !! d) ∧ is_Some (docIndexes vm !! d) ∧ c = confidence vm.
Proof.
  intros Hr. rewrite (range_elem_of _ d c Hr), confidenceMap_lookup by done.
  destruct (seenDocs !! d) as [b|], (docIndexes vm !! d) as [k|]; split;
    try (by intros [= <-]; eauto); try (by intros ([? [=]] & _));
    try (by intros (_ & [? [=]] & _)).
  by intros (_ & _ & ->).
Qed.

(** [scoreCandidates] step by step; it never writes to the heap. *)
Lemma scoreCandidates_unfold candidates seenDocs h :
  scoreCandidates candidates seenDocs h
  = let vm := h_vm h in
    let cm := confidenceMap vm seenDocs in
    if decide (size cm = 0) then
      Ret ((None, Some (InsufficientHistory (size seenDocs) (size (docIndexes vm)))), h)
    else
      match userVector vm cm with
      | Panic msg => Panic msg
      | Ret (userVec, Some e) => Ret ((None, Some e), h)
      | Ret (userVec, None) =>
          match scoresForUserVec vm userVec with
          | Panic msg => Panic msg
          | Ret scoresVec =>
              match forM (λ doc,
                      score ← candidate_score vm seenDocs scoresVec doc;
                      Ret (mkDocumentScore doc score)) (load candidates h) with
              | Panic msg => Panic msg
              | Ret candidateScores =>
                  Ret ((Some (sort_Sort Less candidateScores), None), h)
              end
          end
      end.
Proof.
  unfold scoreCandidates, get_vm, pure, deref, mbind, mret, M_bind, M_ret. cbv zeta.
  destruct (decide (size (confidenceMap (h_vm h) seenDocs) = 0)); [done|].
  destruct (userVector _ _) as [[userVec [e|]]|]; simpl; try done.
  destruct (scoresForUserVec _ _) as [scoresVec|]; simpl; try done.
  by destruct (forM _ _).
Qed.

(** [scoreCandidates] leaves the heap as it is and returns either an
    error without scores or scores without an error. *)
Lemma scoreCandidates_inv candidates seenDocs h r e h' :
  scoreCandidates candidates seenDocs h = Ret ((r, e), h') →
  h' = h ∧ ((r = None ∧ is_Some e) ∨ (is_Some r ∧ e = None)).
Proof.
  rewrite scoreCandidates_unfold. cbv zeta.
  destruct (decide _); [intros [= <- <- <-]; eauto|].
  destruct (userVector _ _) as [[userVec [err|]]|]; [intros [= <- <- <-]; eauto| |done].
  destruct (scoresForUserVec _ _) as [scoresVec|]; [|done].
  destruct (forM _ _); [|done]. intros [= <- <- <-]. eauto.
Qed.

(** The three cases of the score of one candidate. *)
Lemma candidate_score_specified vm seenDocs userVec scoresVec doc score :
  scoresForUserVec vm userVec = Ret scoresVec →
  candidate_score vm seenDocs scoresVec doc = Ret score →
  specified_score vm seenDocs userVec doc score.
Proof.
  unfold scoresForUserVec, MulVec, candidate_score, specified_score.
  destruct (decide _); [|done]. intros [= <-].
  destruct (seenDocs !! doc) as [b|].
  - intros [= <-]. split; [done|]. split; done.
  - destruct (docIndexes vm !! doc) as [k|].
    + unfold VecAt. destruct (_ !! k) as [x|] eqn:Hk; [|done]. intros [= <-].
      split; [by intros [? [=]]|]. split; [done|]. intros _ k' [= <-].
      unfold VecDense in *. rewrite list_lookup_fmap in Hk.
      destruct (seq 0 _ !! k) as [k'|] eqn:Hseq; [|done].
      apply lookup_seq in Hseq as [-> _]. simpl in Hk. congruence.
    + intros [= <-]. split; [by intros [? [=]]|]. split; done.
Qed.

Lemma forM_candidate_scores vm seenDocs scoresVec cands cs :
  forM (λ doc, score ← candidate_score vm seenDocs scoresVec doc;
               Ret (mkDocumentScore doc score)) cands = Ret cs →
  DocumentID <$> cs = cands ∧
  Forall (λ ds, candidate_score vm seenDocs scoresVec (DocumentID ds) = Ret (Score ds)) cs.
Proof.
  rewrite forM_Forall2. induction 1 as [|doc ds cands cs Hds _ [IH1 IH2]]; [done|].
  destruct (candidate_score vm seenDocs scoresVec doc) as [score|] eqn:Hs; [|done].
  simpl in Hds. injection Hds as <-.
  split; [by rewrite fmap_cons, IH1|]. by constructor.
Qed.

(** When [scoreCandidates] returns scores, the solver has returned a user
    vector without an error, and the scores are those of the candidates,
    each scored by the policy, in the order [sort.Sort] leaves them in. *)
Lemma scoreCandidates_success candidates seenDocs h res e h' :
  scoreCandidates candidates seenDocs h = Ret ((Some res, e), h') →
  h' = h ∧ e = None ∧
  size (confidenceMap (h_vm h) seenDocs) ≠ 0 ∧
  ∃ userVec cs,
    userVector (h_vm h) (confidenceMap (h_vm h) seenDocs) = Ret (userVec, None) ∧
    res = sort_Sort Less cs ∧
    DocumentID <$> cs = load candidates h ∧
    Forall (λ ds, specified_score (h_vm h) seenDocs userVec (DocumentID ds) (Score ds)) cs.
Proof.
  rewrite scoreCandidates_unfold. cbv zeta.
  destruct (decide _) as [|Hsize]; [done|].
  destruct (userVector _ _) as [[userVec [err|]]|]; [done| |done].
  destruct (scoresForUserVec _ _) as [scoresVec|] eqn:Hsv; [|done].
  destruct (forM _ _) as [cs|] eqn:Hcs; [|done]. intros [= <- <- <-].
  apply forM_candidate_scores in Hcs as [Hids Hscores].
  do 3 (split; [done|]). exists userVec, cs. do 3 (split; [done|]).
  eapply Forall_impl; [exact Hscores|]. intros ds Hds.
  by eapply candidate_score_specified.
Qed.

Lemma forM_returns {A B} (f : A → outcome B) (l : list A) :
  (∀ x, x ∈ l → returns (f x)) → returns (forM f l).
Proof.
  induction l as [|x l IH]; intros Hf; [by eexists|].
  destruct (Hf x) as [y Hy]; [left|].
  destruct IH as [ys Hys]; [intros z Hz; apply Hf; by right|].
  exists (y :: ys). simpl. by rewrite Hy, Hys.
Qed.

(** Scoring succeeds on a well-formed model as soon as a seen document is
    in the model and the solver returns, without an error, a vector of
    [nFactors] elements. *)
Lemma scoreCandidates_succeeds candidates seenDocs h userVec :
  well_formed (h_vm h) →
  size (confidenceMap (h_vm h) seenDocs) ≠ 0 →
  userVector (h_vm h) (confidenceMap (h_vm h) seenDocs) = Ret (userVec, None) →
  length userVec = nFactors (h_vm h) →
  ∃ cs, scoreCandidates candidates seenDocs h = Ret ((Some cs, None), h).
Proof.
  intros Hwf Hsize Hx Hlen. rewrite scoreCandidates_unfold. cbv zeta.
  rewrite decide_False, Hx by done.
  unfold scoresForUserVec, MulVec.
  rewrite decide_True by (by rewrite (wf_cols _ Hwf)).
  destruct (forM_returns (λ doc,
              score ← candidate_score (h_vm h) seenDocs
                        ((λ i, row_dot (itemFactorsY (h_vm h)) i userVec)
                           <$> seq 0 (rows (itemFactorsY (h_vm h)))) doc;
              Ret (mkDocumentScore doc score)) (load candidates h)) as [cs Hcs].
  - intros doc _. unfold candidate_score.
    destruct (seenDocs !! doc); [by eexists|].
    destruct (docIndexes (h_vm h) !! doc) as [k|] eqn:Hk; [|by eexists].
    unfold VecAt. unfold VecDense. rewrite list_lookup_fmap, lookup_seq_lt.
    + by eexists.
    + by eapply well_formed_index_lt.
  - rewrite Hcs. by eexists.
Qed.

Lemma load_store p l h : load p (store p l h) = l.
Proof. by destruct p. Qed.

Lemma store_store p l l' h : store p l (store p l' h) = store p l h.
Proof. by destruct p. Qed.

Lemma store_load p h : store p (load p h) h = h.
Proof. destruct p, h as [[] ?]; done. Qed.

(** The loop of [Rank] overwrites the elements from i on, of the slice
    behind [candidates] with the document IDs and of [scores] with the
    scores. *)
Lemma Rank_loop_spec candidates cs :
  ∀ i scores h,
    i + length cs ≤ length (load candidates h) → i + length cs ≤ length scores →
    Rank_loop candidates i cs scores h
    = Ret (take i scores ++ (Score <$> cs) ++ drop (i + length cs) scores,
           store candidates
             (take i (load candidates h) ++ (DocumentID <$> cs)
                ++ drop (i + length cs) (load candidates h)) h).
Proof.
  induction cs as [|c cs IH]; intros i scores h Hl Hs.
  - simpl. rewrite Nat.add_0_r, !take_drop, store_load. done.
  - simpl in Hl, Hs. simpl Rank_loop.
    unfold mbind, M_bind, assign_at, pure, assign.
    rewrite !decide_True by lia. simpl.
    rewrite IH by (rewrite ?load_store, length_insert; lia).
    rewrite load_store, store_store. f_equal. f_equal.
    + rewrite (take_S_r _ _ (Score c)) by (apply list_lookup_insert_eq; lia).
      rewrite take_insert_ge by lia. rewrite drop_insert_lt by lia.
      by rewrite <- app_assoc, Nat.add_succ_r.
    + f_equal.
      rewrite (take_S_r _ _ (DocumentID c)) by (apply list_lookup_insert_eq; lia).
      rewrite take_insert_ge by lia. rewrite drop_insert_lt by lia.
      by rewrite <- app_assoc, Nat.add_succ_r.
Qed.

Lemma Rank_loop_vm cs :
  ∀ i scores h r h',
    Rank_loop caller_slice i cs scores h = Ret (r, h') → h_vm h' = h_vm h.
Proof.
  induction cs as [|c cs IH]; intros i scores h r h'; simpl.
  - by intros [= _ <-].
  - unfold mbind, M_bind, assign_at, pure, assign. simpl.
    destruct (decide (i < length (h_candidates h))); [|done]. simpl.
    destruct (decide (i < length scores)); [|done]. simpl.
    intros Hloop. by apply IH in Hloop.
Qed.

(** [Rank] step by step. *)
Lemma Rank_unfold candidates seenDocs h :
  Rank candidates seenDocs h
  = match scoreCandidates candidates seenDocs h with
    | Panic msg => Panic msg
    | Ret ((_, Some e), h1) => Ret ((None, Some e), h1)
    | Ret ((candidateScores, None), h1) =>
        match Rank_loop candidates 0 (default [] candidateScores)
                (replicate (length (default [] candidateScores)) fzero) h1 with
        | Panic msg => Panic msg
        | Ret (scores, h2) => Ret ((Some scores, None), h2)
        end
    end.
Proof.
  unfold Rank, mbind, M_bind, mret, M_ret.
  destruct (scoreCandidates _ _ _) as [[[r [e|]] h1]|]; try done.
Qed.

(** [Recommend] step by step. *)
Lemma Recommend_unfold seenDocs n h :
  Recommend seenDocs n h
  = match scoreCandidates vm_docIDs seenDocs h with
    | Panic msg => Panic msg
    | Ret ((_, Some e), h1) => Ret ((None, Some e), h1)
    | Ret ((recommendations, None), h1) =>
        if decide (Z.of_nat (length (default [] recommendations)) > n)%Z then
          match reslice_to (default [] recommendations) n with
          | Panic msg => Panic msg
          | Ret recommendations => Ret ((Some recommendations, None), h1)
          end
        else Ret ((recommendations, None), h1)
    end.
Proof.
  unfold Recommend, mbind, M_bind, mret, M_ret, pure.
  destruct (scoreCandidates _ _ _) as [[[r [e|]] h1]|]; try done.
  destruct (decide _); [|done]. by destruct (reslice_to _ _).
Qed.

(** Once the candidates are scored, [Rank] copies the IDs into the slice
    behind [candidates] and the scores into a new slice. *)
Lemma Rank_scored candidates seenDocs h cs :
  scoreCandidates candidates seenDocs h = Ret ((Some cs, None), h) →
  length cs = length (load candidates h) →
  Rank candidates seenDocs h
  = Ret ((Some (Score <$> cs), None), store candidates (DocumentID <$> cs) h).
Proof.
  intros Hsc Hlen. rewrite Rank_unfold, Hsc. simpl default.
  rewrite Rank_loop_spec by (rewrite ?length_replicate; simpl; lia).
  simpl. rewrite !drop_ge by (rewrite ?length_replicate; lia).
  by rewrite !app_nil_r.
Qed.

(** The solver reports no other errors than a failed factorization and a
    badly conditioned system. *)
Lemma userVector_errors vm cm x e :
  userVector vm cm = Ret (x, Some e) → e = SingularSystem ∨ ∃ c, e = Condition c.
Proof.
  unfold userVector.
  destruct (eye _ _) as [I|]; [simpl|done].
  destruct (Add _ _) as [A|]; [simpl|done].
  destruct (NewVecDense _ _) as [b|]; [simpl|done].
  destruct (foldlM _ _ _) as [[A' b']|]; [simpl|done].
  destruct (Factorize _) as [ch|]; [|intros [= _ <-]; by left].
  destruct (SolveVec ch b') as [[x' [c|]]|]; simpl; [|done|done].
  intros [= _ <-]. right. by eexists.
Qed.

(** The elements of a sorted slice are those of the slice. *)
Lemma sort_Sort_Forall {A} (P : A → Prop) (less : A → A → bool) (a : list A) :
  sort_permutes → Forall P a → Forall P (sort_Sort less a).
Proof. intros Hp Ha. by rewrite (Hp A less a). Qed.

Lemma Less_strict_weak_on (cs : list DocumentScore) :
  strict_weak_on fgt (Score <$> cs) → strict_weak_on Less cs.
Proof.
  intros (Hirr & Htr & Hneg). unfold Less.
  assert (∀ x, x ∈ cs → Score x ∈ Score <$> cs) as Hin
    by (intros x Hx; apply list_elem_of_fmap; eauto).
  split; [|split].
  - intros x Hx. apply Hirr. by apply Hin.
  - intros x y z Hx Hy Hz. apply Htr; by apply Hin.
  - intros x y z Hx Hy Hz. apply Hneg; by apply Hin.
Qed.

(** Sorted by [byDocScoreDesc], the scores descend. *)
Lemma sort_Sort_descending (cs : list DocumentScore) :
  sort_permutes → sort_sorts →
  strict_weak_on fgt (Score <$> sort_Sort Less cs) →
  descending (Score <$> sort_Sort Less cs).
Proof.
  intros Hp Hs Hswo. unfold descending.
  apply (StronglySorted_fmap Score (λ x y, Less y x = false)); [done|].
  apply Hs. apply Less_strict_weak_on.
  eapply strict_weak_on_incl; [|exact Hswo].
  intros x Hx. by rewrite (Hp _ Less cs).
Qed.

End scoring.

(** * The operations of the package *)

Section operations.
Context `{Float64} `{MapRange} `{SortPkg} `{!CholeskyPkg}.

Lemma take_drop_concat_uniform {A} (ls : list (list A)) (c k : nat) (row : list A) :
  Forall (λ r, length r = c) ls → ls !! k = Some row →
  take c (drop (k * c) (concat ls)) = row.
Proof.
  intros Hls. revert k. induction Hls as [|r ls Hr _ IH]; intros k Hk; [done|].
  destruct k as [|k]; simpl in *.
  - injection Hk as ->. rewrite drop_0. by rewrite take_app_length'.
  - rewrite drop_app_add' by done. by apply IH.
Qed.

(** Row k of the constructed Y is the vector of the k-th visited document. *)
Lemma constructed_row (documents : gmap Z (list F)) vm d v :
  range_spec → well_formed vm →
  docIDs vm = (range documents).*1 →
  data (itemFactorsY vm) = concat (range documents).*2 →
  Forall (λ e, length e.2 = nFactors vm) (range documents) →
  documents !! d = Some v →
  length v = nFactors vm ∧
  ∃ k, docIndexes vm !! d = Some k ∧ RowView (itemFactorsY vm) k = Ret v.
Proof.
  intros Hr Hwf Hids Hdata Huni Hd.
  apply (range_elem_of documents d v Hr) in Hd.
  split; [by apply (proj1 (Forall_forall _ _) Huni (d, v))|].
  apply list_elem_of_lookup in Hd as [k Hk]. exists k.
  assert (docIndexes vm !! d = Some k) as Hidx.
  { apply (wf_index vm Hwf). by rewrite Hids, list_lookup_fmap, Hk. }
  split; [done|]. unfold RowView.
  rewrite decide_True by (by eapply well_formed_index_lt).
  f_equal. rewrite Hdata, (wf_cols vm Hwf).
  apply take_drop_concat_uniform; [by apply Forall_fmap|].
  by rewrite list_lookup_fmap, Hk.
Qed.

Lemma range_empty {V} : range_spec → range (∅ : gmap Z V) = [].
Proof.
  intros Hr. pose proof (Hr _ (∅ : gmap Z V)) as Hp.
  rewrite map_to_list_empty in Hp. by apply Permutation_nil_r in Hp.
Qed.

Lemma range_nonempty {V} (m : gmap Z V) : range_spec → m ≠ ∅ → range m ≠ [].
Proof.
  intros Hr Hne Hnil. apply Hne, map_to_list_empty_iff.
  pose proof (Hr _ m) as Hp. rewrite Hnil in Hp.
  apply Permutation_nil_l in Hp. by symmetry.
Qed.

(** The length of the first vector visited, when all have the length f. *)
Lemma first_length (documents : gmap Z (list F)) f :
  range_spec → (∀ d v, documents !! d = Some v → length v = f) → documents ≠ ∅ →
  match range documents with [] => 0 | e :: _ => length e.2 end = f.
Proof.
  intros Hr Hf Hne. pose proof (range_nonempty documents Hr Hne) as Hnil.
  destruct (range documents) as [|[d v] l] eqn:Hl; [done|].
  apply (Hf d). apply (range_elem_of documents d v Hr). rewrite Hl. left.
Qed.

(** C6. [NewVectorModel] fails with the InvalidDimension error exactly
    when two vectors of the mapping have different lengths, whatever the
    order in which the mapping is visited.  When every vector has the
    length f: for a mapping that is not empty and an f that is positive
    it returns a model and no error, and [nFactors] is f (provided Y and
    the Gram matrix have a number of elements that an [int] counts); for
    an empty mapping or f = 0 it panics in the matrix library, which
    refuses a matrix without rows or columns. *)
Theorem NewVectorModel_InvalidDimension_iff (documents : gmap Z (list F)) (c r : F) :
  range_spec →
  (NewVectorModel documents c r = Ret (None, Some InvalidDimension)
   ↔ ∃ d1 d2 v1 v2, documents !! d1 = Some v1 ∧ documents !! d2 = Some v2 ∧
                    length v1 ≠ length v2) ∧
  (∀ f, (∀ d v, documents !! d = Some v → length v = f) →
        (documents ≠ ∅ → 0 < f →
         (Z.of_nat (size documents) * Z.of_nat f ≤ max_int)%Z →
         (Z.of_nat f * Z.of_nat f ≤ max_int)%Z →
         ∃ vm, NewVectorModel documents c r = Ret (Some vm, None) ∧ nFactors vm = f) ∧
        (documents = ∅ ∨ f = 0 →
         NewVectorModel documents c r
         = Panic "mat: zero length in matrix dimension"%string)).
Proof.
  intros Hr.
  assert (∀ e1 e2, e1 ∈ range documents → e2 ∈ range documents →
            length e1.2 ≠ length e2.2 →
            ∃ d1 d2 v1 v2, documents !! d1 = Some v1 ∧ documents !! d2 = Some v2 ∧
                           length v1 ≠ length v2) as Hdiff.
  { intros [d1 v1] [d2 v2] He1 He2 Hne.
    apply (range_elem_of documents d1 v1 Hr) in He1.
    apply (range_elem_of documents d2 v2 Hr) in He2.
    by exists d1, d2, v1, v2. }
  assert (∀ f', Forall (λ e, length e.2 = f') (range documents) →
            ¬ ∃ d1 d2 v1 v2, documents !! d1 = Some v1 ∧ documents !! d2 = Some v2 ∧
                             length v1 ≠ length v2) as Hsame.
  { intros f' Huni (d1 & d2 & v1 & v2 & Hd1 & Hd2 & Hne). destruct Hne.
    apply (range_elem_of documents d1 v1 Hr) in Hd1.
    apply (range_elem_of documents d2 v2 Hr) in Hd2.
    rewrite Forall_forall in Huni.
    pose proof (Huni _ Hd1) as H1'. pose proof (Huni _ Hd2) as H2'.
    simpl in H1', H2'. congruence. }
  assert (∀ f', (∀ d v, documents !! d = Some v → length v = f') →
            ¬ ∃ e1 e2, e1 ∈ range documents ∧ e2 ∈ range documents ∧
                       length e1.2 ≠ length e2.2) as Huniform.
  { intros f' Hf ([d1 v1] & [d2 v2] & He1 & He2 & Hne). destruct Hne.
    apply (range_elem_of documents d1 v1 Hr) in He1.
    apply (range_elem_of documents d2 v2 Hr) in He2.
    simpl. by rewrite (Hf _ _ He1), (Hf _ _ He2). }
  destruct (NewVectorModel_cases documents c r Hr)
    as [(vm & Hvm & Hwf & _ & _ & _ & _ & _ & Huni & HnF & Hsize & Hfits)
       |[(Herr & e1 & e2 & He1 & He2 & Hne)
        |(Huni & [(Hzero & Hpanic)|(Hsize & Hpos & Hnofit & msg & Hpanic)])]].
  - split.
    + split; [by rewrite Hvm|]. intros Hex. by destruct (Hsame _ Huni).
    + intros f Hf. split.
      * intros Hne _ _ _. exists vm. split; [done|].
        by rewrite HnF, (first_length documents f).
      * intros [-> | ->].
        -- rewrite map_size_empty in Hsize. lia.
        -- destruct (decide (documents = ∅)) as [->|Hne];
             [rewrite map_size_empty in Hsize; lia|].
           pose proof (wf_factors vm Hwf) as Hpos.
           rewrite HnF, (first_length documents 0) in Hpos by done. lia.
  - split.
    + split; [intros _; by apply (Hdiff e1 e2)|done].
    + intros f Hf. destruct (Huniform f Hf). by exists e1, e2.
  - split.
    + split; [by rewrite Hpanic|]. intros Hex. by destruct (Hsame _ Huni).
    + intros f Hf. split; [|done].
      intros Hne Hpos _ _. exfalso.
      rewrite (first_length documents f) in Hzero by done.
      destruct Hzero as [Hzero|Hzero]; [|lia].
      by apply map_size_empty_iff in Hzero.
  - split.
    + split; [by rewrite Hpanic|]. intros Hex. by destruct (Hsame _ Huni).
    + intros f Hf. split.
      * intros Hne _ HfitsY HfitsG. destruct Hnofit.
        by rewrite (first_length documents f).
      * intros [-> | ->].
        -- rewrite map_size_empty in Hsize. lia.
        -- destruct (decide (documents = ∅)) as [->|Hne];
             [rewrite map_size_empty in Hsize; lia|].
           rewrite (first_length documents 0) in Hpos by done. lia.
Qed.

(** C9. For an empty mapping [NewVectorModel] does not return: the loop
    does not run, [nFactors] stays 0, and the matrix library, handed a
    matrix without rows and columns, panics. *)
Theorem NewVectorModel_empty (c r : F) :
  range_spec →
  NewVectorModel ∅ c r = Panic "mat: zero length in matrix dimension"%string.
Proof.
  intros Hr. unfold NewVectorModel.
  rewrite range_empty by done. by rewrite map_size_empty.
Qed.

(** [Rank] on the caller's slice does not write to the model. *)
Lemma Rank_vm_unchanged seenDocs h r h' :
  Rank caller_slice seenDocs h = Ret (r, h') → h_vm h' = h_vm h.
Proof.
  rewrite Rank_unfold.
  destruct (scoreCandidates _ _ _) as [[[cs e] h1]|] eqn:Hsc; [|done].
  apply scoreCandidates_inv in Hsc as [-> _].
  destruct e as [e|]; [by intros [= _ <-]|].
  destruct (Rank_loop _ _ _ _ _) as [[scores h2]|] eqn:Hloop; [|done].
  intros [= _ <-]. by apply Rank_loop_vm in Hloop.
Qed.

(** [Recommend] does not write to the heap at all. *)
Lemma Recommend_heap_unchanged seenDocs n h r h' :
  Recommend seenDocs n h = Ret (r, h') → h' = h.
Proof.
  rewrite Recommend_unfold.
  destruct (scoreCandidates _ _ _) as [[[cs e] h1]|] eqn:Hsc; [|done].
  apply scoreCandidates_inv in Hsc as [-> _].
  destruct e as [e|]; [by intros [= _ <-]|].
  destruct (decide _); [|by intros [= _ <-]].
  destruct (reslice_to _ _); [|done]. by intros [= _ <-].
Qed.

(** C7. A model that [NewVectorModel] returns is well formed; it holds
    the vectors of the mapping as the rows of Y, all of length
    f = [nFactors]; its Gram matrix is f×f and its element (i, j) is the
    sum over the rows k of Y(k, i)·Y(k, j).  [Rank] (on a slice of the
    caller) and [Recommend] leave every field of the model as it is, and
    so the equality too. *)
Theorem gram_matrix_invariant (documents : gmap Z (list F)) (c r : F) vm e :
  range_spec →
  NewVectorModel documents c r = Ret (Some vm, e) →
  let Y := itemFactorsY vm in
  let G := squaredItemFactorsYtY vm in
  let f := nFactors vm in
  well_formed vm ∧
  (∀ d v, documents !! d = Some v →
          length v = f ∧ ∃ k, docIndexes vm !! d = Some k ∧ RowView Y k = Ret v) ∧
  rows Y = size documents ∧ cols Y = f ∧
  rows G = f ∧ cols G = f ∧
  (∀ i j, i < f → j < f →
          At G i j = Ret (sum ((λ k, fmul (at0 Y k i) (at0 Y k j)) <$> seq 0 (rows Y)))) ∧
  (∀ seenDocs h scores h',
     Rank caller_slice seenDocs h = Ret (scores, h') → h_vm h' = h_vm h) ∧
  (∀ seenDocs n h recommendations h',
     Recommend seenDocs n h = Ret (recommendations, h') → h_vm h' = h_vm h).
Proof.
  intros Hr Hnew. cbv zeta.
  destruct (NewVectorModel_cases documents c r Hr)
    as [(vm' & Hvm & Hwf & _ & _ & Hids & Hrows & Hdata & Huni & _)
       |[(Herr & _)|(_ & [(_ & Hpanic)|(_ & _ & _ & msg & Hpanic)])]];
    [|by rewrite Herr in Hnew|by rewrite Hpanic in Hnew..].
  rewrite Hvm in Hnew. injection Hnew as -> _.
  split; [done|].
  split; [intros d v Hd; by eapply constructed_row|].
  split; [done|]. split; [by apply wf_cols|].
  rewrite (wf_gram vm Hwf), tabulate_rows, tabulate_cols.
  split; [done|]. split; [done|]. split.
  - intros i j Hi Hj. unfold At.
    rewrite tabulate_rows, tabulate_cols, !decide_True by done.
    by rewrite at0_tabulate.
  - split.
    + intros seenDocs h scores h'. apply Rank_vm_unchanged.
    + intros seenDocs n h recs h' Hrec.
      by rewrite (Recommend_heap_unchanged _ _ _ _ _ Hrec).
Qed.


(** What [Rank] has done when it returns scores. *)
Lemma Rank_scores_inv candidates seenDocs h scores e h' :
  sort_permutes →
  Rank candidates seenDocs h = Ret ((Some scores, e), h') →
  ∃ userVec cs,
    e = None ∧
    userVector (h_vm h) (confidenceMap (h_vm h) seenDocs) = Ret (userVec, None) ∧
    DocumentID <$> cs = load candidates h ∧
    Forall (λ ds, specified_score (h_vm h) seenDocs userVec (DocumentID ds) (Score ds)) cs ∧
    scoreCandidates candidates seenDocs h = Ret ((Some (sort_Sort Less cs), None), h) ∧
    scores = Score <$> sort_Sort Less cs ∧
    h' = store candidates (DocumentID <$> sort_Sort Less cs) h.
Proof.
  intros Hp HRank. pose proof HRank as HRank'. rewrite Rank_unfold in HRank'.
  destruct (scoreCandidates _ _ _) as [[[r e'] h1]|] eqn:Hsc; [|done].
  destruct e' as [e'|]; [done|].
  pose proof (scoreCandidates_inv _ _ _ _ _ _ Hsc) as [-> [[_ [? [=]]]|[[res ->] _]]].
  clear HRank'.
  pose proof (scoreCandidates_success _ _ _ _ _ _ Hsc)
    as (_ & _ & _ & userVec & cs & Huv & -> & Hids & Hsp).
  rewrite (Rank_scored _ _ _ _ Hsc) in HRank.
  2:{ rewrite <- Hids, length_fmap. by rewrite (Hp _ Less cs). }
  injection HRank as <- <- <-. by exists userVec, cs.
Qed.

(** Once the model's documents are scored, [Recommend] returns the first
    n of them, and panics for a negative n. *)
Lemma Recommend_scored seenDocs n h recs h1 :
  scoreCandidates vm_docIDs seenDocs h = Ret ((Some recs, None), h1) →
  Recommend seenDocs n h
  = if decide (0 ≤ n)%Z then Ret ((Some (take (Z.to_nat n) recs), None), h)
    else Panic "runtime error: slice bounds out of range"%string.
Proof.
  intros Hsc. pose proof (scoreCandidates_inv _ _ _ _ _ _ Hsc) as [-> _].
  rewrite Recommend_unfold, Hsc. simpl default. unfold reslice_to.
  destruct (decide (Z.of_nat (length recs) > n)%Z) as [Hgt|Hle].
  - destruct (decide (0 ≤ n)%Z) as [Hn|Hn].
    + by rewrite decide_True by lia.
    + by rewrite decide_False by lia.
  - rewrite decide_True by lia. by rewrite take_ge by lia.
Qed.

(** What [Recommend] has done when it returns recommendations. *)
Lemma Recommend_inv seenDocs n h recs e h' :
  Recommend seenDocs n h = Ret ((Some recs, e), h') →
  ∃ userVec cs,
    e = None ∧ h' = h ∧ (0 ≤ n)%Z ∧
    userVector (h_vm h) (confidenceMap (h_vm h) seenDocs) = Ret (userVec, None) ∧
    DocumentID <$> cs = docIDs (h_vm h) ∧
    Forall (λ ds, specified_score (h_vm h) seenDocs userVec (DocumentID ds) (Score ds)) cs ∧
    scoreCandidates vm_docIDs seenDocs h = Ret ((Some (sort_Sort Less cs), None), h) ∧
    recs = take (Z.to_nat n) (sort_Sort Less cs).
Proof.
  intros HRec. pose proof HRec as HRec'. rewrite Recommend_unfold in HRec'.
  destruct (scoreCandidates _ _ _) as [[[r e'] h1]|] eqn:Hsc; [|done].
  destruct e' as [e'|]; [done|].
  pose proof (scoreCandidates_inv _ _ _ _ _ _ Hsc) as [-> [[_ [? [=]]]|[[res ->] _]]].
  clear HRec'.
  pose proof (scoreCandidates_success _ _ _ _ _ _ Hsc)
    as (_ & _ & _ & userVec & cs & Huv & -> & Hids & Hsp).
  rewrite (Recommend_scored _ n _ _ _ Hsc) in HRec.
  destruct (decide (0 ≤ n)%Z); [|done].
  injection HRec as <- <- <-. by exists userVec, cs.
Qed.

(** C2. Every score that [Rank] or [Recommend] returns follows the
    policy: −1 for a candidate in the seen set; otherwise 0 for a
    candidate that is not in the ID index; otherwise the dot product of
    the candidate's row of Y with the user vector that the solver
    computed.  For [Rank] the scores are read against the reordered
    candidate slice. *)
Theorem scores_follow_policy seenDocs h :
  sort_permutes →
  (∀ scores e h',
     Rank caller_slice seenDocs h = Ret ((Some scores, e), h') →
     ∃ userVec,
       userVector (h_vm h) (confidenceMap (h_vm h) seenDocs) = Ret (userVec, None) ∧
       Forall2 (specified_score (h_vm h) seenDocs userVec) (h_candidates h') scores) ∧
  (∀ n recs e h',
     Recommend seenDocs n h = Ret ((Some recs, e), h') →
     ∃ userVec,
       userVector (h_vm h) (confidenceMap (h_vm h) seenDocs) = Ret (userVec, None) ∧
       Forall (λ ds, specified_score (h_vm h) seenDocs userVec
                       (DocumentID ds) (Score ds)) recs).
Proof.
  intros Hp. split.
  - intros scores e h' HRank.
    apply Rank_scores_inv in HRank
      as (userVec & cs & _ & Huv & _ & Hsp & _ & -> & ->); [|done].
    exists userVec. split; [done|]. simpl.
    apply Forall2_fmap, Forall_Forall2_diag.
    by apply sort_Sort_Forall.
  - intros n recs e h' HRec.
    apply Recommend_inv in HRec as (userVec & cs & _ & _ & _ & Huv & _ & Hsp & _ & ->).
    exists userVec. split; [done|].
    apply Forall_take. by apply sort_Sort_Forall.
Qed.

(** The two ways in which [scoreCandidates] returns an error. *)
Lemma scoreCandidates_no_history candidates seenDocs h :
  size (confidenceMap (h_vm h) seenDocs) = 0 →
  scoreCandidates candidates seenDocs h
  = Ret ((None, Some (InsufficientHistory (size seenDocs) (size (docIndexes (h_vm h))))), h).
Proof. intros Hs. rewrite scoreCandidates_unfold. cbv zeta. by rewrite decide_True. Qed.

Lemma scoreCandidates_solver_error candidates seenDocs h x e :
  size (confidenceMap (h_vm h) seenDocs) ≠ 0 →
  userVector (h_vm h) (confidenceMap (h_vm h) seenDocs) = Ret (x, Some e) →
  scoreCandidates candidates seenDocs h = Ret ((None, Some e), h).
Proof.
  intros Hs Hx. rewrite scoreCandidates_unfold. cbv zeta.
  by rewrite decide_False, Hx.
Qed.

(** An error of [scoreCandidates] comes without scores; it is
    InsufficientHistory only when no seen document is in the model. *)
Lemma scoreCandidates_error_inv candidates seenDocs h r e h' :
  scoreCandidates candidates seenDocs h = Ret ((r, Some e), h') →
  r = None ∧ h' = h ∧
  ∀ a b, e = InsufficientHistory a b → size (confidenceMap (h_vm h) seenDocs) = 0.
Proof.
  rewrite scoreCandidates_unfold. cbv zeta.
  destruct (decide _) as [Hs|Hs]; [by intros [= <- <- <-]|].
  destruct (userVector _ _) as [[userVec [err|]]|] eqn:Hx; [| |done].
  - intros [= <- <- <-]. do 2 (split; [done|]). intros a b ->.
    by apply userVector_errors in Hx as [?|[? ?]].
  - destruct (scoresForUserVec _ _); [|done]. by destruct (forM _ _).
Qed.

Lemma Rank_error candidates seenDocs h r e h1 :
  scoreCandidates candidates seenDocs h = Ret ((r, Some e), h1) →
  Rank candidates seenDocs h = Ret ((None, Some e), h1).
Proof. intros Hsc. by rewrite Rank_unfold, Hsc. Qed.

Lemma Recommend_error seenDocs n h r e h1 :
  scoreCandidates vm_docIDs seenDocs h = Ret ((r, Some e), h1) →
  Recommend seenDocs n h = Ret ((None, Some e), h1).
Proof. intros Hsc. by rewrite Recommend_unfold, Hsc. Qed.

Lemma Rank_error_inv candidates seenDocs h scores e h' :
  Rank candidates seenDocs h = Ret ((scores, Some e), h') →
  ∃ r, scoreCandidates candidates seenDocs h = Ret ((r, Some e), h') ∧ scores = None.
Proof.
  rewrite Rank_unfold.
  destruct (scoreCandidates _ _ _) as [[[r [e'|]] h1]|]; [| |done].
  - intros [= <- <- <-]. by exists r.
  - by destruct (Rank_loop _ _ _ _ _) as [[? ?]|].
Qed.

Lemma Recommend_error_inv seenDocs n h recs e h' :
  Recommend seenDocs n h = Ret ((recs, Some e), h') →
  ∃ r, scoreCandidates vm_docIDs seenDocs h = Ret ((r, Some e), h') ∧ recs = None.
Proof.
  rewrite Recommend_unfold.
  destruct (scoreCandidates _ _ _) as [[[r [e'|]] h1]|]; [| |done].
  - intros [= <- <- <-]. by exists r.
  - destruct (decide _); [|done]. by destruct (reslice_to _ _).
Qed.

(** C3. [Rank] and [Recommend] return the InsufficientHistory error
    exactly when no seen document is in the ID index.  A seen document
    that is not in the index does not reach the solver: the confidence map
    is the same without it.  An error of the solver is returned as it
    is, and every error comes with the nil slice and an unchanged heap. *)
Theorem InsufficientHistory_iff seenDocs h :
  range_spec →
  let vm := h_vm h in
  let none_known := ∀ d, is_Some (seenDocs !! d) → docIndexes vm !! d = None in
  let err := InsufficientHistory (size seenDocs) (size (docIndexes vm)) in
  (none_known →
     (∀ candidates, Rank candidates seenDocs h = Ret ((None, Some err), h)) ∧
     (∀ n, Recommend seenDocs n h = Ret ((None, Some err), h))) ∧
  (∀ candidates scores a b h',
     Rank candidates seenDocs h = Ret ((scores, Some (InsufficientHistory a b)), h') →
     none_known) ∧
  (∀ n recs a b h',
     Recommend seenDocs n h = Ret ((recs, Some (InsufficientHistory a b)), h') →
     none_known) ∧
  (∀ d, docIndexes vm !! d = None →
        confidenceMap vm (delete d seenDocs) = confidenceMap vm seenDocs) ∧
  (∀ x e, ¬ none_known →
     userVector vm (confidenceMap vm seenDocs) = Ret (x, Some e) →
     (∀ candidates, Rank candidates seenDocs h = Ret ((None, Some e), h)) ∧
     (∀ n, Recommend seenDocs n h = Ret ((None, Some e), h))) ∧
  (∀ candidates scores e h',
     Rank candidates seenDocs h = Ret ((scores, Some e), h') → scores = None ∧ h' = h) ∧
  (∀ n recs e h',
     Recommend seenDocs n h = Ret ((recs, Some e), h') → recs = None ∧ h' = h).
Proof.
  intros Hr. cbv zeta.
  pose proof (confidenceMap_size_0 (h_vm h) seenDocs Hr) as Hsize.
  split; [|split; [|split; [|split; [|split; [|split]]]]].
  - intros Hnone. apply Hsize in Hnone. split.
    + intros candidates. eapply Rank_error. by apply scoreCandidates_no_history.
    + intros n. eapply Recommend_error. by apply scoreCandidates_no_history.
  - intros candidates scores a b h' HRank.
    apply Rank_error_inv in HRank as (r & Hsc & _).
    apply scoreCandidates_error_inv in Hsc as (_ & _ & Hs).
    apply Hsize. by eapply Hs.
  - intros n recs a b h' HRec.
    apply Recommend_error_inv in HRec as (r & Hsc & _).
    apply scoreCandidates_error_inv in Hsc as (_ & _ & Hs).
    apply Hsize. by eapply Hs.
  - intros d Hd. apply map_eq. intros d'.
    rewrite !confidenceMap_lookup by done.
    destruct (decide (d = d')) as [<-|Hne].
    + rewrite Hd. by destruct (delete d seenDocs !! d), (seenDocs !! d).
    + by rewrite lookup_delete_ne.
  - intros x e Hknown Hx.
    assert (size (confidenceMap (h_vm h) seenDocs) ≠ 0) as Hs
      by (intros Hs; by apply Hknown, Hsize).
    split.
    + intros candidates. eapply Rank_error. by eapply scoreCandidates_solver_error.
    + intros n. eapply Recommend_error. by eapply scoreCandidates_solver_error.
  - intros candidates scores e h' HRank.
    apply Rank_error_inv in HRank as (r & Hsc & ->).
    by apply scoreCandidates_error_inv in Hsc as (_ & -> & _).
  - intros n recs e h' HRec.
    apply Recommend_error_inv in HRec as (r & Hsc & ->).
    by apply scoreCandidates_error_inv in Hsc as (_ & -> & _).
Qed.

(** The documents that [scoreCandidates] returns are a rearrangement of
    the candidates. *)
Lemma scoreCandidates_Permutation candidates seenDocs h res e h' :
  sort_permutes →
  scoreCandidates candidates seenDocs h = Ret ((Some res, e), h') →
  DocumentID <$> res ≡ₚ load candidates h.
Proof.
  intros Hp Hsc.
  apply scoreCandidates_success in Hsc as (_ & _ & _ & userVec & cs & _ & -> & <- & _).
  by rewrite (Hp _ Less cs).
Qed.

(** The scores that [scoreCandidates] returns descend, as far as [>]
    orders them. *)
Lemma scoreCandidates_descending candidates seenDocs h res e h' :
  sort_permutes → sort_sorts →
  scoreCandidates candidates seenDocs h = Ret ((Some res, e), h') →
  strict_weak_on fgt (Score <$> res) → descending (Score <$> res).
Proof.
  intros Hp Hs Hsc.
  apply scoreCandidates_success in Hsc as (_ & _ & _ & userVec & cs & _ & -> & _ & _).
  by apply sort_Sort_descending.
Qed.

Lemma descending_take (scores : list F) n : descending scores → descending (take n scores).
Proof.
  unfold descending. intros Hd.
  rewrite <- (take_drop n scores) in Hd. by apply StronglySorted_app_1_l in Hd.
Qed.

(** C4. When scoring succeeds and n is not negative, [Recommend] scores
    each of the k documents of the model once, sorts them by descending
    score (as far as [>] orders the scores: no NaN among them) and
    returns the first min(n, k) of them; all k of them when n ≥ k. *)
Theorem Recommend_top_n seenDocs n h all h1 :
  sort_permutes → sort_sorts →
  scoreCandidates vm_docIDs seenDocs h = Ret ((Some all, None), h1) →
  (0 ≤ n)%Z →
  let k := length (docIDs (h_vm h)) in
  let recs := take (Z.to_nat n) all in
  Recommend seenDocs n h = Ret ((Some recs, None), h) ∧
  DocumentID <$> all ≡ₚ docIDs (h_vm h) ∧
  length recs = Z.to_nat (Z.min n (Z.of_nat k)) ∧
  ((Z.of_nat k ≤ n)%Z → recs = all) ∧
  (strict_weak_on fgt (Score <$> all) →
     descending (Score <$> all) ∧ descending (Score <$> recs)).
Proof.
  intros Hp Hs Hsc Hn. cbv zeta.
  pose proof (scoreCandidates_Permutation _ _ _ _ _ _ Hp Hsc) as Hperm.
  simpl in Hperm.
  assert (length all = length (docIDs (h_vm h))) as Hlen
    by (by rewrite <- Hperm, length_fmap).
  split; [|split; [done|split; [|split]]].
  - rewrite (Recommend_scored _ n _ _ _ Hsc). by rewrite decide_True.
  - rewrite length_take, Hlen. lia.
  - intros Hk. apply take_ge. lia.
  - intros Hswo.
    pose proof (scoreCandidates_descending _ _ _ _ _ _ Hp Hs Hsc Hswo) as Hd.
    split; [done|]. rewrite fmap_take. by apply descending_take.
Qed.

(** C5. When scoring succeeds, with the sorted (document, score) pairs
    [cs], [Rank] overwrites the caller's candidate slice with the
    documents of [cs] in their order, a rearrangement of the slice (the
    same IDs as often as before), and returns the scores of [cs] in the
    same order: the score at i belongs to the candidate now at i, and
    it is that candidate's score by the policy of C2.  The scores descend
    (as far as [>] orders them: no NaN among them).  The model is left as
    it is. *)
Theorem Rank_reorders_in_place seenDocs h cs h1 :
  sort_permutes → sort_sorts →
  scoreCandidates caller_slice seenDocs h = Ret ((Some cs, None), h1) →
  Rank caller_slice seenDocs h
  = Ret ((Some (Score <$> cs), None), mkHeap (h_vm h) (DocumentID <$> cs)) ∧
  DocumentID <$> cs ≡ₚ h_candidates h ∧
  length (Score <$> cs) = length (h_candidates h) ∧
  (∃ userVec,
     userVector (h_vm h) (confidenceMap (h_vm h) seenDocs) = Ret (userVec, None) ∧
     Forall2 (specified_score (h_vm h) seenDocs userVec)
       (DocumentID <$> cs) (Score <$> cs)) ∧
  (strict_weak_on fgt (Score <$> cs) → descending (Score <$> cs)).
Proof.
  intros Hp Hs Hsc.
  pose proof (scoreCandidates_inv _ _ _ _ _ _ Hsc) as [-> _].
  pose proof (scoreCandidates_Permutation _ _ _ _ _ _ Hp Hsc) as Hperm.
  simpl in Hperm.
  split; [|split; [done|split; [by rewrite <- Hperm, !length_fmap|split]]].
  - rewrite (Rank_scored _ _ _ _ Hsc); [done|].
    simpl. by rewrite <- Hperm, length_fmap.
  - pose proof (scoreCandidates_success _ _ _ _ _ _ Hsc)
      as (_ & _ & _ & userVec & cs0 & Huv & -> & _ & Hsp).
    exists userVec. split; [done|].
    apply Forall2_fmap, Forall_Forall2_diag. by apply sort_Sort_Forall.
  - by eapply scoreCandidates_descending.
Qed.

(** C8, as the code has it.  When scoring succeeds and n is at least the
    number k of documents, [Recommend] returns every document of the
    model.  A seen document has the score −1; it comes after every
    document whose score is greater than −1 and before every document
    whose score is less than −1 (as far as [>] orders the scores): it is
    last only among the documents that score −1 or more. *)
Theorem Recommend_seen_item_position seenDocs n h all h1 :
  sort_permutes → sort_sorts →
  scoreCandidates vm_docIDs seenDocs h = Ret ((Some all, None), h1) →
  (Z.of_nat (length (docIDs (h_vm h))) ≤ n)%Z →
  Recommend seenDocs n h = Ret ((Some all, None), h) ∧
  DocumentID <$> all ≡ₚ docIDs (h_vm h) ∧
  ∀ before seen after,
    all = before ++ seen :: after → is_Some (seenDocs !! DocumentID seen) →
    Score seen = fopp fone ∧
    (strict_weak_on fgt (Score <$> all) →
       Forall (λ ds, fgt (fopp fone) (Score ds) = false) before ∧
       Forall (λ ds, fgt (Score ds) (fopp fone) = false) after).
Proof.
  intros Hp Hs Hsc Hn.
  pose proof (scoreCandidates_Permutation _ _ _ _ _ _ Hp Hsc) as Hperm.
  simpl in Hperm.
  assert (length all = length (docIDs (h_vm h))) as Hlen
    by (by rewrite <- Hperm, length_fmap).
  split; [|split; [done|]].
  - rewrite (Recommend_scored _ n _ _ _ Hsc), decide_True by lia.
    by rewrite take_ge by lia.
  - intros before seen after Hall Hseen.
    pose proof (scoreCandidates_success _ _ _ _ _ _ Hsc)
      as (_ & _ & _ & userVec & cs0 & _ & Hsort & _ & Hsp).
    apply (sort_Sort_Forall _ Less cs0 Hp) in Hsp. rewrite <- Hsort, Hall in Hsp.
    apply Forall_app in Hsp as [_ Hsp]. apply Forall_cons in Hsp as [[Hm1 _] _].
    specialize (Hm1 Hseen). split; [done|]. intros Hswo.
    pose proof (scoreCandidates_descending _ _ _ _ _ _ Hp Hs Hsc Hswo) as Hd.
    unfold descending in Hd. rewrite Hall, fmap_app, fmap_cons, Hm1 in Hd.
    split.
    + apply Forall_forall. intros ds Hds.
      apply (StronglySorted_app_1_elem_of _ _ _ (Score ds) (fopp fone)) in Hd;
        [done| |left].
      apply list_elem_of_fmap. by exists ds.
    + apply StronglySorted_app_1_r, StronglySorted_inv in Hd as [_ Hd].
      by apply Forall_fmap in Hd.
Qed.

(** C10. When scoring succeeds, [Recommend] with a negative n panics at
    the slice expression; with any other n it returns. *)
Theorem Recommend_negative_n_panics seenDocs n h recs h1 :
  scoreCandidates vm_docIDs seenDocs h = Ret ((Some recs, None), h1) →
  ((n < 0)%Z →
     Recommend seenDocs n h = Panic "runtime error: slice bounds out of range"%string) ∧
  ((0 ≤ n)%Z →
     Recommend seenDocs n h = Ret ((Some (take (Z.to_nat n) recs), None), h)).
Proof.
  intros Hsc. rewrite (Recommend_scored _ n _ _ _ Hsc). split; intros Hn.
  - by rewrite decide_False by lia.
  - by rewrite decide_True.
Qed.

End operations.

(** * Further properties of the package *)

Section coverage.
Context `{Float64} `{MapRange} `{SortPkg} `{!CholeskyPkg}.

(** X1. [confidenceMap] keeps exactly the seen documents that are in the
    ID index, whatever value the seen set gives them and in whatever order
    the seen set is visited, each with the confidence of the model; it
    never holds more entries than the seen set. *)
Theorem confidenceMap_seen_in_model vm (seenDocs : gmap Z bool) :
  range_spec →
  dom (confidenceMap vm seenDocs) = dom seenDocs ∩ dom (docIndexes vm) ∧
  (∀ d c, confidenceMap vm seenDocs !! d = Some c → c = confidence vm) ∧
  size (confidenceMap vm seenDocs) ≤ size seenDocs.
Proof.
  intros Hr.
  assert (dom (confidenceMap vm seenDocs) = dom seenDocs ∩ dom (docIndexes vm)) as Hdom.
  { apply set_eq. intros d.
    rewrite elem_of_intersection, !elem_of_dom, confidenceMap_lookup by done.
    destruct (seenDocs !! d), (docIndexes vm !! d); split;
      try (by intros [? [=]]); try (by intros [[? [=]] _]);
      try (by intros [_ [? [=]]]); eauto. }
  split; [done|]. split.
  - intros d c. rewrite confidenceMap_lookup by done.
    destruct (seenDocs !! d), (docIndexes vm !! d); by intros [=].
  - rewrite <- !size_dom, Hdom. apply subseteq_size, intersection_subseteq_l.
Qed.

(** X2. For a positive n whose square an [int] counts, [eye] returns
    the n×n matrix with [value] on the diagonal and zero elsewhere; for a
    negative n it panics. *)
Theorem eye_diagonal (n : Z) value :
  ((n < 0)%Z → ¬ returns (eye n value)) ∧
  ((0 < n)%Z → (n * n ≤ max_int)%Z →
   ∃ m, eye n value = Ret m ∧ rows m = Z.to_nat n ∧ cols m = Z.to_nat n ∧
        ∀ i j, i < rows m → j < cols m →
               At m i j = Ret (if decide (i = j) then value else fzero)).
Proof.
  split.
  - intros Hn [m Hm]. unfold eye, make_slice, NewDense in Hm.
    destruct (decide (0 ≤ int_mul n n)%Z); [|done].
    rewrite bind_Ret, decide_True in Hm by lia.
    by destruct (decide (n = 0 ∨ n = 0)%Z).
  - intros Hn Hfits. rewrite <- (Z2Nat.id n) in Hfits |- * by lia.
    rewrite Nat2Z.id.
    eexists. split; [apply eye_spec; lia|]. split; [done|]. split; [done|].
    intros i j Hi Hj. unfold At. rewrite !decide_True by done.
    rewrite tabulate_rows in Hi. rewrite tabulate_cols in Hj.
    by rewrite (at0_tabulate _ _ (λ i j, if decide (i = j) then _ else _)).
Qed.

(** X3. On a well-formed model [scoresForUserVec] returns exactly when
    the user vector has [nFactors] elements, and panics otherwise; the
    result has a score per document of the model, each the dot product of
    the document's factor row with the user vector, so that every index
    of the ID index is in range of it. *)
Theorem scoresForUserVec_dot_products vm (userVec : VecDense) :
  well_formed vm →
  (length userVec ≠ nFactors vm → ∃ msg, scoresForUserVec vm userVec = Panic msg) ∧
  (length userVec = nFactors vm →
     ∃ scores : VecDense,
       scoresForUserVec vm userVec = Ret scores ∧
       length scores = length (docIDs vm) ∧
       (∀ doc k, docIndexes vm !! doc = Some k → is_Some (scores !! k)) ∧
       (∀ k row, RowView (itemFactorsY vm) k = Ret row →
                 scores !! k = Some (sum (zip_with fmul row userVec)))).
Proof.
  intros Hwf. unfold scoresForUserVec, MulVec, VecDense in *.
  rewrite (wf_cols vm Hwf). split.
  - intros Hlen. rewrite decide_False by done. by eexists.
  - intros Hlen. rewrite decide_True by done. eexists. split; [done|].
    split; [by rewrite length_fmap, length_seq, (wf_rows vm Hwf)|]. split.
    + intros doc k Hk. rewrite list_lookup_fmap, lookup_seq_lt; [by eexists|].
      by eapply well_formed_index_lt.
    + intros k row Hrow. unfold RowView in Hrow.
      destruct (decide (k < rows (itemFactorsY vm))) as [Hk|]; [|done].
      destruct (RowView_spec (itemFactorsY vm) k (wf_data vm Hwf) Hk)
        as (row' & Hrow' & Hlen' & Hnth).
      unfold RowView in Hrow'. rewrite decide_True in Hrow' by done.
      rewrite Hrow' in Hrow. injection Hrow as ->.
      rewrite list_lookup_fmap, lookup_seq_lt by done. simpl. f_equal.
      unfold row_dot. f_equal.
      assert (row = at0 (itemFactorsY vm) k <$> seq 0 (cols (itemFactorsY vm))) as ->.
      { apply list_eq. intros j. rewrite list_lookup_fmap.
        destruct (decide (j < cols (itemFactorsY vm))) as [Hj|Hj].
        - rewrite lookup_seq_lt by done. simpl. rewrite <- Hnth, nth_lookup by done.
          destruct (row !! j) eqn:E; [done|]. apply lookup_ge_None in E. lia.
        - rewrite lookup_seq_ge by lia. apply lookup_ge_None. lia. }
      symmetry. apply zip_with_tabulated. by rewrite Hlen, (wf_cols vm Hwf).
Qed.

Lemma range_keys {V} (m : gmap Z V) d :
  range_spec → d ∈ (range m).*1 ↔ is_Some (m !! d).
Proof.
  intros Hr. rewrite list_elem_of_fmap. split.
  - intros [[d' v] [-> Hin]]. apply (range_elem_of m d' v Hr) in Hin. by eexists.
  - intros [v Hv]. exists (d, v). split; [done|]. by apply range_elem_of.
Qed.

(** X4. [NewVectorModel] reports no other error than InvalidDimension.
    The model it returns has a document and a factor at least, stores the
    two scalars, lists every document of the mapping exactly once in
    [docIDs], and its ID index has the documents of the mapping as keys
    and is the inverse of [docIDs].  It panics only on a mapping whose
    vectors all have one length f, and that is empty, or has f = 0, or
    asks for a matrix with more elements than an [int] counts. *)
Theorem NewVectorModel_index (documents : gmap Z (list F)) (c r : F) :
  range_spec →
  NewVectorModel documents c r = Ret (None, Some InvalidDimension) ∨
  (∃ vm, NewVectorModel documents c r = Ret (Some vm, None) ∧
         confidence vm = c ∧ regularization vm = r ∧
         0 < nFactors vm ∧ documents ≠ ∅ ∧
         NoDup (docIDs vm) ∧ length (docIDs vm) = size documents ∧
         (∀ d, d ∈ docIDs vm ↔ is_Some (documents !! d)) ∧
         dom (docIndexes vm) = dom documents ∧
         (∀ d i, docIndexes vm !! d = Some i ↔ docIDs vm !! i = Some d)) ∨
  (∃ msg f, NewVectorModel documents c r = Panic msg ∧
            (∀ d v, documents !! d = Some v → length v = f) ∧
            (documents = ∅ ∨ f = 0 ∨
             ¬ (Z.of_nat (size documents) * Z.of_nat f ≤ max_int
                ∧ Z.of_nat f * Z.of_nat f ≤ max_int)%Z)).
Proof.
  intros Hr.
  destruct (NewVectorModel_cases documents c r Hr)
    as [(vm & Hvm & Hwf & Hc & Hreg & Hids & _ & _ & _ & _ & Hsize & _)
       |[[Herr _]
        |(Huni & [(Hzero & Hpanic)|(_ & _ & Hnofit & msg & Hpanic)])]];
    [right; left|by left|right; right..].
  - assert (∀ d, d ∈ docIDs vm ↔ is_Some (documents !! d)) as Hmem.
    { intros d. rewrite Hids. by apply range_keys. }
    exists vm. repeat split; try done.
    + by apply (wf_factors vm Hwf).
    + intros ->. rewrite map_size_empty in Hsize. lia.
    + rewrite Hids. by apply range_NoDup.
    + by rewrite Hids, length_fmap, range_length.
    + by apply Hmem.
    + by apply Hmem.
    + apply set_eq. intros d. rewrite !elem_of_dom, <- Hmem, list_elem_of_lookup.
      split; intros [i Hi]; exists i; by apply (wf_index vm Hwf).
    + by apply (wf_index vm Hwf).
    + by apply (wf_index vm Hwf).
  - eexists _, _. split; [done|]. split.
    + intros d v Hd. apply (range_elem_of documents d v Hr) in Hd.
      by apply (proj1 (Forall_forall _ _) Huni (d, v)).
    + destruct Hzero as [Hzero|Hzero]; [left|right; by left].
      by apply map_size_empty_iff.
  - exists msg. eexists. split; [done|]. split.
    + intros d v Hd. apply (range_elem_of documents d v Hr) in Hd.
      by apply (proj1 (Forall_forall _ _) Huni (d, v)).
    + right. by right.
Qed.

Lemma forM_ext {A B} (f g : A → outcome B) (l : list A) :
  (∀ x, f x = g x) → forM f l = forM g l.
Proof. intros Hfg. induction l as [|x l IH]; [done|]. simpl. by rewrite Hfg, IH. Qed.

(** X6. No index of [Rank] or [Recommend] goes out of range: on a
    well-formed model, for any candidate slice and any seen set, [Rank]
    returns, and so does [Recommend] for every n ≥ 0, provided the solver
    returns a vector of [nFactors] elements whenever the factorization of
    the system of the seen set succeeds. *)
Theorem Rank_Recommend_in_bounds seenDocs h :
  sort_permutes → well_formed (h_vm h) →
  let vm := h_vm h in
  let entries := range (confidenceMap vm seenDocs) in
  let n := nFactors vm in
  (∀ ch, Factorize (unsafeSymmetric (tabulate n n (system_A vm entries)) n) = Some ch →
         ∃ x cond, SolveVec ch (system_b vm entries <$> seq 0 n) = Ret (x, cond) ∧
                   length x = n) →
  (∀ candidates, returns (Rank candidates seenDocs h)) ∧
  (∀ k, (0 ≤ k)%Z → returns (Recommend seenDocs k h)).
Proof.
  intros Hp Hwf. cbv zeta. intros Hsolve.
  assert (∀ candidates,
            (∃ e, scoreCandidates candidates seenDocs h = Ret ((None, Some e), h)) ∨
            (∃ cs, scoreCandidates candidates seenDocs h = Ret ((Some cs, None), h) ∧
                   length cs = length (load candidates h))) as Hsc.
  { intros candidates.
    destruct (decide (size (confidenceMap (h_vm h) seenDocs) = 0)) as [Hz|Hz].
    { left. eexists. by apply scoreCandidates_no_history. }
    pose proof (userVector_unfold (h_vm h) (confidenceMap (h_vm h) seenDocs) Hwf) as Hu.
    cbv zeta in Hu.
    destruct (Factorize _) as [ch|] eqn:Hch.
    2:{ left. eexists. by eapply scoreCandidates_solver_error. }
    destruct (Hsolve ch eq_refl) as (x & cond & Hx & Hlen).
    rewrite Hx, bind_Ret in Hu. simpl in Hu.
    destruct cond as [cond|].
    { left. eexists. by eapply scoreCandidates_solver_error. }
    right.
    destruct (scoreCandidates_succeeds candidates seenDocs h x Hwf Hz Hu Hlen) as [cs Hcs].
    exists cs. split; [done|].
    destruct (scoreCandidates_success _ _ _ _ _ _ Hcs)
      as (_ & _ & _ & u & cs0 & _ & -> & Hids & _).
    rewrite (Hp _ Less cs0), <- Hids. by rewrite length_fmap. }
  split.
  - intros candidates. destruct (Hsc candidates) as [[e He]|(cs & Hcs & Hlen)].
    + eexists. by eapply Rank_error.
    + eexists. by apply Rank_scored.
  - intros k Hk. destruct (Hsc vm_docIDs) as [[e He]|(cs & Hcs & Hlen)].
    + eexists. by eapply Recommend_error.
    + eexists. rewrite (Recommend_scored _ _ _ _ _ Hcs). by rewrite decide_True.
Qed.

Lemma foldl_filter_skip {A B} (P : A → Prop) `{!∀ x, Decision (P x)}
    (f : B → A → B) (l : list A) (b : B) :
  (∀ b x, ¬ P x → f b x = b) → foldl f b (filter P l) = foldl f b l.
Proof.
  intros Hskip. revert b. induction l as [|x l IH]; intros b; [done|].
  rewrite filter_cons. destruct (decide (P x)) as [Hx|Hx]; simpl.
  - apply IH.
  - by rewrite IH, (Hskip b x).
Qed.

Lemma system_A_filter vm (entries : list (Z * F)) i j :
  system_A vm (filter (λ e, is_Some (docIndexes vm !! e.1)) entries) i j
  = system_A vm entries i j.
Proof.
  unfold system_A. apply (foldl_filter_skip (λ e, is_Some (docIndexes vm !! e.1))).
  intros acc e He. destruct (docIndexes vm !! e.1); [|done]. by destruct He.
Qed.

Lemma system_b_filter vm (entries : list (Z * F)) i :
  system_b vm (filter (λ e, is_Some (docIndexes vm !! e.1)) entries) i
  = system_b vm entries i.
Proof.
  unfold system_b. apply (foldl_filter_skip (λ e, is_Some (docIndexes vm !! e.1))).
  intros acc e He. destruct (docIndexes vm !! e.1); [|done]. by destruct He.
Qed.

(** X7. [userVector] skips an entry of the confidence map whose document
    is not in the ID index: two confidence maps whose entries for
    documents of the model are visited in the same order, with the same
    confidences, yield the same outcome, whatever else they hold. *)
Theorem userVector_skips_unknown vm (cm1 cm2 : gmap Z F) :
  well_formed vm →
  filter (λ e, is_Some (docIndexes vm !! e.1)) (range cm1)
  = filter (λ e, is_Some (docIndexes vm !! e.1)) (range cm2) →
  userVector vm cm1 = userVector vm cm2.
Proof.
  intros Hwf Heq. rewrite !userVector_unfold by done. cbv zeta.
  rewrite (tabulate_ext _ _ (system_A vm (range cm1)) (system_A vm (range cm2))).
  2:{ intros i j _ _. by rewrite <- system_A_filter, Heq, system_A_filter. }
  rewrite (list_fmap_ext (system_b vm (range cm1)) (system_b vm (range cm2))); [done|].
  intros _ i _. by rewrite <- system_b_filter, Heq, system_b_filter.
Qed.

Lemma gram_sym (Y : Dense) i j :
  (∀ x y : F, fmul x y = fmul y x) → gram Y i j = gram Y j i.
Proof.
  intros Hc. unfold gram. f_equal. apply list_fmap_ext. intros _ k _. apply Hc.
Qed.

Lemma system_A_sym vm (entries : list (Z * F)) i j :
  (∀ x y : F, fmul x y = fmul y x) → well_formed vm →
  i < nFactors vm → j < nFactors vm →
  system_A vm entries i j = system_A vm entries j i.
Proof.
  intros Hc Hwf Hi Hj. unfold system_A.
  assert (fadd (at0 (squaredItemFactorsYtY vm) i j)
               (if decide (i = j) then regularization vm else fzero)
          = fadd (at0 (squaredItemFactorsYtY vm) j i)
                 (if decide (j = i) then regularization vm else fzero)) as Hinit.
  { rewrite (wf_gram vm Hwf), !at0_tabulate by done.
    rewrite (gram_sym _ i j Hc).
    destruct (decide (i = j)), (decide (j = i)); done || lia. }
  revert Hinit. generalize (fadd (at0 (squaredItemFactorsYtY vm) i j)
                              (if decide (i = j) then regularization vm else fzero)).
  generalize (fadd (at0 (squaredItemFactorsYtY vm) j i)
                (if decide (j = i) then regularization vm else fzero)).
  induction entries as [|e entries IH]; intros a1 a2 Ha; [done|].
  simpl. apply IH. destruct (docIndexes vm !! e.1); [|done].
  by rewrite Ha, (Hc (at0 _ _ i)).
Qed.

(** X8. The matrix that [userVector] hands to the Cholesky factorization
    as [unsafeSymmetric] is what the wrapper says it is, when the
    multiplication of the numbers is commutative: [Symmetric()] returns
    its number of rows and of columns, and its element at (i, j) is its
    element at (j, i). *)
Theorem unsafeSymmetric_is_symmetric vm (cm : gmap Z F) :
  (∀ x y : F, fmul x y = fmul y x) → well_formed vm →
  let n := nFactors vm in
  let s := unsafeSymmetric (tabulate n n (system_A vm (range cm))) n in
  userVector vm cm
  = match Factorize s with
    | None => Ret ([], Some SingularSystem)
    | Some ch =>
        r ← SolveVec ch (system_b vm (range cm) <$> seq 0 n);
        Ret (r.1, option_map Condition r.2)
    end ∧
  Symmetric_ s = rows (sym_matrix s) ∧ Symmetric_ s = cols (sym_matrix s) ∧
  ∀ i j, i < Symmetric_ s → j < Symmetric_ s →
         ∃ a, At (sym_matrix s) i j = Ret a ∧ At (sym_matrix s) j i = Ret a.
Proof.
  intros Hc Hwf. cbv zeta. split; [by apply userVector_unfold|].
  split; [done|]. split; [done|].
  unfold Symmetric_, unsafeSymmetric. cbn [sym_order sym_matrix].
  intros i j Hi Hj. unfold At.
  rewrite tabulate_rows, tabulate_cols, !decide_True by done.
  eexists. split; [done|]. f_equal.
  rewrite !at0_tabulate by done. by apply system_A_sym.
Qed.

Lemma scoreCandidates_load p q seenDocs h :
  load p h = load q h → scoreCandidates p seenDocs h = scoreCandidates q seenDocs h.
Proof. intros Heq. rewrite !scoreCandidates_unfold. cbv zeta. by rewrite Heq. Qed.

Lemma specified_score_functional vm seenDocs (userVec : VecDense) doc s1 s2 :
  specified_score vm seenDocs userVec doc s1 →
  specified_score vm seenDocs userVec doc s2 → s1 = s2.
Proof.
  intros (Ha1 & Hb1 & Hc1) (Ha2 & Hb2 & Hc2).
  destruct (seenDocs !! doc) as [b|] eqn:Hseen.
  - by rewrite Ha1, Ha2 by by eexists.
  - destruct (docIndexes vm !! doc) as [k|] eqn:Hk.
    + by rewrite (Hc1 eq_refl k), (Hc2 eq_refl k).
    + by rewrite Hb1, Hb2.
Qed.

(** X10. [Rank] scores a document, not a position: after it returns,
    two positions of the candidate slice that hold the same document,
    as a slice with duplicates has, hold the same score. *)
Theorem Rank_same_document_same_score candidates seenDocs h scores e h' :
  sort_permutes →
  Rank candidates seenDocs h = Ret ((Some scores, e), h') →
  ∀ i j doc,
    load candidates h' !! i = Some doc → load candidates h' !! j = Some doc →
    is_Some (scores !! i) ∧ scores !! i = scores !! j.
Proof.
  intros Hp Hrank.
  destruct (Rank_scores_inv _ _ _ _ _ _ Hp Hrank)
    as (u & cs & _ & _ & _ & Hspec & _ & -> & ->).
  rewrite load_store. intros i j doc Hi Hj.
  rewrite !list_lookup_fmap in *.
  destruct (sort_Sort Less cs !! i) as [di|] eqn:Hdi; [|done].
  destruct (sort_Sort Less cs !! j) as [dj|] eqn:Hdj; [|done].
  simpl in *. split; [by eexists|]. f_equal.
  apply (sort_Sort_Forall _ Less cs Hp) in Hspec.
  pose proof (proj1 (Forall_lookup _ _) Hspec i di Hdi) as Hsi.
  pose proof (proj1 (Forall_lookup _ _) Hspec j dj Hdj) as Hsj.
  simpl in Hsi, Hsj. injection Hi as Hi. injection Hj as Hj.
  rewrite Hi in Hsi. rewrite Hj in Hsj.
  by eapply specified_score_functional.
Qed.

Lemma index_lookup {A} (l : list A) i x : l !! i = Some x → index l i = Ret x.
Proof. intros Hx. unfold index. by rewrite Hx. Qed.

Lemma exchange_lookup {A} (l : list A) i j x y k :
  l !! i = Some x → l !! j = Some y →
  <[j := x]> (<[i := y]> l) !! k
  = l !! (if decide (k = i) then j else if decide (k = j) then i else k).
Proof.
  intros Hi Hj.
  pose proof (lookup_lt_Some _ _ _ Hi). pose proof (lookup_lt_Some _ _ _ Hj).
  rewrite !list_lookup_insert, length_insert.
  repeat case_decide; destruct_and?; subst; try congruence; exfalso; lia.
Qed.

Lemma exchange_assign {A} (l : list A) i j x y :
  l !! i = Some x → l !! j = Some y →
  (a ← assign l i y; assign a j x) = Ret (<[j := x]> (<[i := y]> l)).
Proof.
  intros Hi Hj.
  pose proof (lookup_lt_Some _ _ _ Hi). pose proof (lookup_lt_Some _ _ _ Hj).
  unfold assign. rewrite decide_True, bind_Ret by done.
  by rewrite decide_True by (by rewrite length_insert).
Qed.

(** X11. [byDocScoreDesc.Swap] at two indices below [Len] returns, and
    exchanges the two elements: the slice keeps its length and its
    elements, every other position is untouched, a second [Swap] at the
    same indices restores the slice, and [Less] at (i, j) after the call
    is [Less] at (j, i) before it. *)
Theorem byDocScoreDesc_Swap_exchanges (a : list DocumentScore) i j :
  i < byDocScoreDesc_Len a → j < byDocScoreDesc_Len a →
  ∃ a', byDocScoreDesc_Swap a i j = Ret a' ∧
        byDocScoreDesc_Len a' = byDocScoreDesc_Len a ∧
        a' ≡ₚ a ∧
        a' !! i = a !! j ∧ a' !! j = a !! i ∧
        (∀ k, k ≠ i → k ≠ j → a' !! k = a !! k) ∧
        byDocScoreDesc_Swap a' i j = Ret a ∧
        byDocScoreDesc_Less a' i j = byDocScoreDesc_Less a j i.
Proof.
  unfold byDocScoreDesc_Len. intros Hi Hj.
  destruct (lookup_lt_is_Some_2 a i Hi) as [ai Hai].
  destruct (lookup_lt_is_Some_2 a j Hj) as [aj Haj].
  pose proof (exchange_lookup a i j ai aj) as Hlook.
  assert (<[j := ai]> (<[i := aj]> a) !! i = Some aj) as Hi'.
  { rewrite Hlook, decide_True by done. done. }
  assert (<[j := ai]> (<[i := aj]> a) !! j = Some ai) as Hj'.
  { rewrite Hlook by done. destruct (decide (j = i)) as [->|]; [congruence|].
    by rewrite decide_True. }
  exists (<[j := ai]> (<[i := aj]> a)). repeat split.
  - unfold byDocScoreDesc_Swap.
    rewrite (index_lookup _ _ _ Haj), bind_Ret, (index_lookup _ _ _ Hai), bind_Ret.
    by apply exchange_assign.
  - by rewrite !length_insert.
  - apply Permutation_inj. split; [by rewrite !length_insert|].
    exists (λ k, if decide (k = i) then j else if decide (k = j) then i else k).
    split; [|by intros k; apply Hlook].
    intros k1 k2. repeat case_decide; lia.
  - congruence.
  - congruence.
  - intros k Hki Hkj. rewrite Hlook by done. by rewrite !decide_False.
  - unfold byDocScoreDesc_Swap.
    rewrite (index_lookup _ _ _ Hj'), bind_Ret, (index_lookup _ _ _ Hi'), bind_Ret.
    rewrite (exchange_assign _ i j aj ai) by done. f_equal.
    apply list_eq. intros k.
    rewrite (exchange_lookup _ i j aj ai) by done. rewrite Hlook by done.
    repeat case_decide; subst; done || lia.
  - unfold byDocScoreDesc_Less.
    by rewrite (index_lookup _ _ _ Hi'), (index_lookup _ _ _ Hj'),
      (index_lookup _ _ _ Hai), (index_lookup _ _ _ Haj).
Qed.

(** X12. With an index that is not below [Len], [byDocScoreDesc.Swap]
    and [byDocScoreDesc.Less] panic; [Swap] reads both elements before it
    writes, so that no slice is returned with one element written. *)
Theorem byDocScoreDesc_out_of_range (a : list DocumentScore) i j :
  byDocScoreDesc_Len a ≤ i ∨ byDocScoreDesc_Len a ≤ j →
  ¬ returns (byDocScoreDesc_Swap a i j) ∧ ¬ returns (byDocScoreDesc_Less a i j).
Proof.
  unfold byDocScoreDesc_Len, byDocScoreDesc_Swap, byDocScoreDesc_Less, index.
  intros Hout.
  destruct (a !! i) as [ai|] eqn:Hai, (a !! j) as [aj|] eqn:Haj.
  - apply lookup_lt_Some in Hai, Haj. lia.
  - split; by intros [? [=]].
  - split; by intros [? [=]].
  - split; by intros [? [=]].
Qed.

(** X15. [Recommend] on a constructed model recommends documents of the
    mapping only, none of them twice, and min(n, number of documents) of
    them. *)
Theorem Recommend_distinct_documents (documents : gmap Z (list F)) (c r : F)
    vm seenDocs n h recs e h' :
  range_spec → sort_permutes →
  NewVectorModel documents c r = Ret (Some vm, None) → h_vm h = vm →
  Recommend seenDocs n h = Ret ((Some recs, e), h') →
  NoDup (DocumentID <$> recs) ∧
  (∀ ds, ds ∈ recs → is_Some (documents !! DocumentID ds)) ∧
  length recs = Z.to_nat n `min` size documents.
Proof.
  intros Hr Hp Hvm Hh Hrec.
  destruct (NewVectorModel_cases documents c r Hr)
    as [(vm' & Hvm' & _ & _ & _ & Hdocs & _)
       |[[Herr _]|(_ & [(_ & Hpanic)|(_ & _ & _ & msg & Hpanic)])]];
    [|by rewrite Hvm in Herr|by rewrite Hvm in Hpanic..].
  rewrite Hvm in Hvm'. injection Hvm' as <-.
  assert (NoDup (docIDs vm)) as Hnd by (rewrite Hdocs; by apply range_NoDup).
  assert (length (docIDs vm) = size documents) as Hlen
    by (by rewrite Hdocs, length_fmap, range_length).
  assert (∀ d, d ∈ docIDs vm ↔ is_Some (documents !! d)) as Hmem
    by (intros d; rewrite Hdocs; by apply range_keys).
  destruct (Recommend_inv _ _ _ _ _ _ Hrec)
    as (u & cs & _ & _ & _ & _ & Hids & _ & _ & ->).
  rewrite Hh in Hids.
  assert (DocumentID <$> sort_Sort Less cs ≡ₚ docIDs vm) as Hperm.
  { by rewrite (Hp _ Less cs), Hids. }
  split; [|split].
  - rewrite fmap_take. eapply sublist_NoDup; [|apply sublist_take].
    by rewrite Hperm.
  - intros ds Hds. apply Hmem. rewrite <- Hperm.
    apply list_elem_of_fmap. exists ds. split; [done|].
    by eapply subseteq_take.
  - rewrite length_take. f_equal.
    by rewrite <- Hlen, <- Hperm, length_fmap.
Qed.

End coverage.

(** * Two calls *)

(** The maps of two calls are visited in orders of their own. *)
Section two_calls.
Context `{Float64} `{SortPkg} `{!CholeskyPkg} (first second : MapRange).

(** The confidence map does not depend on the order in which the seen
    set is visited, nor on the values of the seen set. *)
Lemma confidenceMap_orders vm (seen1 seen2 : gmap Z bool) :
  @range_spec first → @range_spec second → dom seen1 = dom seen2 →
  confidenceMap (H0 := first) vm seen1 = confidenceMap (H0 := second) vm seen2.
Proof.
  intros Hr1 Hr2 Hdom. apply map_eq. intros d.
  rewrite (confidenceMap_lookup (H0 := first)), (confidenceMap_lookup (H0 := second))
    by done.
  assert (seen1 !! d = None ↔ seen2 !! d = None) as Hkeys
    by (by rewrite <- !not_elem_of_dom, Hdom).
  revert Hkeys. destruct (seen1 !! d), (seen2 !! d); intros [Hk1 Hk2]; try done;
    [discriminate (Hk2 eq_refl)|discriminate (Hk1 eq_refl)].
Qed.

Lemma userVector_orders vm (cm : gmap Z F) :
  @range first _ cm = @range second _ cm →
  userVector (H0 := first) vm cm = userVector (H0 := second) vm cm.
Proof. intros Heq. unfold userVector. by rewrite Heq. Qed.

Lemma scoreCandidates_orders candidates (seen1 seen2 : gmap Z bool) h :
  @range_spec first → @range_spec second → dom seen1 = dom seen2 →
  @range first _ (confidenceMap (H0 := first) (h_vm h) seen1)
  = @range second _ (confidenceMap (H0 := first) (h_vm h) seen1) →
  scoreCandidates (H0 := first) candidates seen1 h
  = scoreCandidates (H0 := second) candidates seen2 h.
Proof.
  intros Hr1 Hr2 Hdom Horder.
  rewrite (scoreCandidates_unfold (H0 := first)), (scoreCandidates_unfold (H0 := second)).
  cbv zeta. rewrite <- (confidenceMap_orders (h_vm h) seen1 seen2) by done.
  rewrite <- (size_dom seen1), <- (size_dom seen2), Hdom.
  destruct (decide _); [done|].
  rewrite <- userVector_orders by done.
  destruct (userVector _ _) as [[userVec [e|]]|]; try done.
  destruct (scoresForUserVec _ _) as [scoresVec|]; [|done].
  rewrite (forM_ext _ (λ doc,
             score ← candidate_score (h_vm h) seen2 scoresVec doc;
             Ret (mkDocumentScore doc score))); [done|].
  intros doc. unfold candidate_score.
  assert (seen1 !! doc = None ↔ seen2 !! doc = None) as Hkeys
    by (by rewrite <- !not_elem_of_dom, Hdom).
  revert Hkeys. destruct (seen1 !! doc), (seen2 !! doc); intros [Hk1 Hk2]; try done;
    [discriminate (Hk2 eq_refl)|discriminate (Hk1 eq_refl)].
Qed.

(** X5. Only the keys of the seen set matter: a document that the set
    maps to false is seen like one that it maps to true.  Two calls of
    [Rank], or of [Recommend], with seen sets of the same keys have the
    same outcome when they visit the confidence map in the same order,
    whatever the orders in which they visit the seen sets. *)
Theorem seenDocs_values_ignored (seen1 seen2 : gmap Z bool) h :
  @range_spec first → @range_spec second → dom seen1 = dom seen2 →
  @range first _ (confidenceMap (H0 := first) (h_vm h) seen1)
  = @range second _ (confidenceMap (H0 := first) (h_vm h) seen1) →
  confidenceMap (H0 := first) (h_vm h) seen1
  = confidenceMap (H0 := second) (h_vm h) seen2 ∧
  (∀ candidates, Rank (H0 := first) candidates seen1 h
                 = Rank (H0 := second) candidates seen2 h) ∧
  (∀ n, Recommend (H0 := first) seen1 n h = Recommend (H0 := second) seen2 n h).
Proof.
  intros Hr1 Hr2 Hdom Horder. split; [by apply confidenceMap_orders|]. split.
  - intros candidates.
    rewrite (Rank_unfold (H0 := first)), (Rank_unfold (H0 := second)).
    by rewrite (scoreCandidates_orders _ seen1 seen2).
  - intros n.
    rewrite (Recommend_unfold (H0 := first)), (Recommend_unfold (H0 := second)).
    by rewrite (scoreCandidates_orders _ seen1 seen2).
Qed.

(** X9. [Recommend] is [Rank] over the documents of the model, cut to
    the first n: when the caller's slice holds the model's ID list, a
    call of [Recommend] returns recommendations, and a call of [Rank] on
    that slice visits the confidence map in the same order, then [Rank]
    returns the scores of a list of which the recommendations are the
    first n, and leaves the IDs of that list in the slice. *)
Theorem Recommend_is_Rank_prefix seenDocs n h recs e h' :
  @range_spec first → @range_spec second → sort_permutes →
  h_candidates h = docIDs (h_vm h) →
  @range first _ (confidenceMap (H0 := first) (h_vm h) seenDocs)
  = @range second _ (confidenceMap (H0 := first) (h_vm h) seenDocs) →
  Recommend (H0 := first) seenDocs n h = Ret ((Some recs, e), h') →
  ∃ all,
    Rank (H0 := second) caller_slice seenDocs h
    = Ret ((Some (Score <$> all), None), mkHeap (h_vm h) (DocumentID <$> all)) ∧
    recs = take (Z.to_nat n) all.
Proof.
  intros Hr1 Hr2 Hp Hcand Horder Hrec.
  destruct (Recommend_inv (H0 := first) _ _ _ _ _ _ Hrec)
    as (u & cs & _ & _ & _ & _ & Hids & _ & Hsc & ->).
  exists (sort_Sort Less cs). split; [|done].
  rewrite (scoreCandidates_orders _ seenDocs seenDocs) in Hsc by done.
  rewrite (scoreCandidates_load (H0 := second) vm_docIDs caller_slice) in Hsc by done.
  rewrite (Rank_scored (H0 := second) _ _ _ _ Hsc); [done|].
  simpl. by rewrite (Hp _ Less cs), Hcand, <- Hids, length_fmap.
Qed.

End two_calls.

(** * The order of [float64] *)

Section float64.
Context `{MapRange} `{SortPkg} `{!@CholeskyPkg binary64}.

Lemma SFcompare_refl x : x ≠ S754_nan → SFcompare x x = Some Eq.
Proof.
  destruct x as [[]|[]| |[] m e]; intros Hx; simpl; try done;
    by rewrite Z.compare_refl, Pos.compare_cont_refl.
Qed.

Ltac order_cases :=
  repeat match goal with
         | |- context [Z.compare ?a ?b] => destruct (Z.compare_spec a b); subst
         | |- context [Pos.compare_cont Eq ?a ?b] =>
             change (Pos.compare_cont Eq a b) with (Pos.compare a b);
             destruct (Pos.compare_spec a b); subst
         end;
  simpl; intros; try congruence; try lia.

Lemma SFltb_trans x y z : SFltb x y = true → SFltb y z = true → SFltb x z = true.
Proof.
  unfold SFltb.
  destruct x as [[]|[]| |[] mx ex], y as [[]|[]| |[] my ey], z as [[]|[]| |[] mz ez];
    simpl; try congruence; order_cases.
Qed.

Lemma SFltb_incomparable_trans x y z :
  y ≠ S754_nan → SFltb x y = false → SFltb y z = false → SFltb x z = false.
Proof.
  unfold SFltb.
  destruct x as [[]|[]| |[] mx ex], y as [[]|[]| |[] my ey], z as [[]|[]| |[] mz ez];
    simpl; try congruence; order_cases.
Qed.

Lemma SFltb_nan_r x : SFltb x S754_nan = false.
Proof. by destruct x. Qed.

Lemma is_nan_Prim2SF x : PrimFloat.is_nan x = true ↔ Prim2SF x = S754_nan.
Proof.
  unfold PrimFloat.is_nan. rewrite FloatAxioms.eqb_spec. unfold SFeqb. split.
  - intros Hx. destruct (Prim2SF x) eqn:Hs; try done;
      by rewrite SFcompare_refl in Hx.
  - by intros ->.
Qed.

Lemma not_nan_Prim2SF x : PrimFloat.is_nan x = false → Prim2SF x ≠ S754_nan.
Proof. intros Hx Hn. apply is_nan_Prim2SF in Hn. congruence. Qed.

Lemma fgt_binary64 (x y : float) : @fgt binary64 x y = SFltb (Prim2SF y) (Prim2SF x).
Proof. apply ltb_spec. Qed.

Lemma fgt_nan (x y : float) :
  PrimFloat.is_nan x = true → @fgt binary64 x y = false ∧ @fgt binary64 y x = false.
Proof.
  intros Hx%is_nan_Prim2SF. rewrite !fgt_binary64, Hx. split; [apply SFltb_nan_r|done].
Qed.

(** [>] is a strict weak order on numbers that are not NaN. *)
Lemma no_nan_strict_weak_on (l : list float) :
  Forall (λ s, PrimFloat.is_nan s = false) l → strict_weak_on (@fgt binary64) l.
Proof.
  intros Hl. rewrite Forall_forall in Hl. split; [|split].
  - intros x Hx. rewrite fgt_binary64. unfold SFltb.
    by rewrite SFcompare_refl by (by apply not_nan_Prim2SF, Hl).
  - intros x y z _ _ _. rewrite !fgt_binary64. intros Hxy Hyz.
    by apply (SFltb_trans _ (Prim2SF y)).
  - intros x y z _ Hy _. rewrite !fgt_binary64. intros Hxy Hyz.
    apply (SFltb_incomparable_trans _ (Prim2SF y)); [|done..].
    by apply not_nan_Prim2SF, Hl.
Qed.

Lemma SF64mul_comm x y : SF64mul x y = SF64mul y x.
Proof.
  unfold SF64mul, SFmul.
  destruct x as [sx|sx| |sx mx ex], y as [sy|sy| |sy my ey];
    try done; rewrite ?(xorb_comm sx sy); try done.
  by rewrite (Pos.mul_comm mx my), (Z.add_comm ex ey).
Qed.

Lemma binary64_mul_comm (x y : float) : @fmul binary64 x y = @fmul binary64 y x.
Proof. apply Prim2SF_inj. simpl. by rewrite !mul_spec, SF64mul_comm. Qed.

(** X13. On [float64], [byDocScoreDesc.Less] is the strict weak order
    that [sort.Interface] asks for exactly on the slices that hold no NaN
    score, or on which [Less] is false throughout: a NaN beside two
    scores of which one is greater breaks it. *)
Theorem float64_Less_strict_weak_order (cs : list (@DocumentScore binary64)) :
  strict_weak_on (@Less binary64) cs ↔
  Forall (λ ds, PrimFloat.is_nan (Score ds) = false) cs ∨
  (∀ x y, x ∈ cs → y ∈ cs → @Less binary64 x y = false).
Proof.
  split.
  - intros (_ & _ & Hinc).
    destruct (decide (Forall (λ ds : @DocumentScore binary64,
                                PrimFloat.is_nan (Score ds) = false) cs))
      as [Hall|Hsome]; [by left|right].
    apply not_Forall_Exists in Hsome; [|apply _].
    apply Exists_exists in Hsome as (nan & Hin & Hnan). simpl in Hnan.
    apply not_false_iff_true in Hnan.
    intros x y Hx Hy. apply (Hinc x nan y); try done; unfold Less.
    + by apply (fgt_nan (Score nan) (Score x)).
    + by apply (fgt_nan (Score nan) (Score y)).
  - intros [Hall|Hnone].
    + apply Less_strict_weak_on, no_nan_strict_weak_on. by apply Forall_fmap.
    + split; [|split].
      * intros x Hx. by apply Hnone.
      * intros x y z Hx Hy _ Hxy. by rewrite Hnone in Hxy.
      * intros x y z Hx _ Hz _ _. by apply Hnone.
Qed.

(** X14. On [float64], the scores that [Rank] returns are in descending
    order whenever none of them is NaN, and so are the scores of the
    recommendations of [Recommend] when n is at least the number of
    documents of the model. *)
Theorem float64_scores_descending seenDocs (h : @heap binary64) :
  sort_permutes → sort_sorts →
  (∀ candidates scores e h',
     Rank candidates seenDocs h = Ret ((Some scores, e), h') →
     Forall (λ s, PrimFloat.is_nan s = false) scores → descending scores) ∧
  (∀ n recs e h',
     Recommend seenDocs n h = Ret ((Some recs, e), h') →
     (Z.of_nat (length (docIDs (h_vm h))) ≤ n)%Z →
     Forall (λ ds, PrimFloat.is_nan (Score ds) = false) recs →
     descending (Score <$> recs)).
Proof.
  intros Hp Hs. split.
  - intros candidates scores e h' Hrank Hnan.
    destruct (Rank_scores_inv _ _ _ _ _ _ Hp Hrank)
      as (u & cs & _ & _ & _ & _ & _ & -> & _).
    apply sort_Sort_descending; [done..|]. by apply no_nan_strict_weak_on.
  - intros n recs e h' Hrec Hn Hnan.
    destruct (Recommend_inv _ _ _ _ _ _ Hrec)
      as (u & cs & _ & _ & _ & _ & Hids & _ & _ & ->).
    assert (length (sort_Sort Less cs) = length (docIDs (h_vm h))) as Hlen.
    { by rewrite (Hp _ Less cs), <- Hids, length_fmap. }
    rewrite take_ge in * by lia.
    apply sort_Sort_descending; [done..|].
    apply no_nan_strict_weak_on. by apply Forall_fmap.
Qed.

End float64.

(** * The solver of the exact instance meets its contract *)





(** * The operations on the fixture *)

Lemma fixture_built :
  NewVectorModel (H := binary64) fixture_documents 27.5%float 0.5%float
  = Ret (Some fixture_vm, None).
Proof. vm_compute. reflexivity. Qed.

Lemma fixture_well_formed : well_formed fixture_vm.
Proof.
  destruct (NewVectorModel_cases (H := binary64) fixture_documents 27.5%float 0.5%float
              range_map_to_list_spec)
    as [(vm & Hvm & Hwf & _)
       |[(Herr & _)|(_ & [(_ & Hpanic)|(_ & _ & _ & msg & Hpanic)])]].
  - rewrite fixture_built in Hvm. by injection Hvm as <-.
  - by rewrite fixture_built in Herr.
  - by rewrite fixture_built in Hpanic.
  - by rewrite fixture_built in Hpanic.
Qed.

Lemma fixture_userVector :
  userVector fixture_vm (confidenceMap fixture_vm fixture_seen)
  = Ret ([0.4296875%float], None).
Proof. vm_compute. reflexivity. Qed.

Lemma fixture_scored :
  scoreCandidates vm_docIDs fixture_seen fixture_heap
  = Ret ((Some [(fixture_score 1 (-1)%float); (fixture_score 2 (-2.578125)%float)],
          None), fixture_heap).
Proof. vm_compute. reflexivity. Qed.

Lemma fixture_ranked :
  scoreCandidates caller_slice fixture_seen fixture_heap
  = Ret ((Some [(fixture_score 7 0%float); (fixture_score 1 (-1)%float);
                fixture_score 2 (-2.578125)%float;
                fixture_score 2 (-2.578125)%float], None), fixture_heap).
Proof. vm_compute. reflexivity. Qed.


(** C2 on the fixture: the unknown document 7 scores 0, the seen
    document 1 scores −1, and document 2 scores −6·0.4296875. *)
Lemma scores_follow_policy_witness :
  @sort_permutes sort_insertion ∧
  Rank caller_slice fixture_seen fixture_heap
  = Ret ((Some [0%float; (-1)%float; (-2.578125)%float; (-2.578125)%float], None),
         mkHeap fixture_vm [7; 1; 2; 2]%Z) ∧
  Forall2 (specified_score fixture_vm fixture_seen [0.4296875%float])
    [7; 1; 2; 2]%Z [0%float; (-1)%float; (-2.578125)%float; (-2.578125)%float].
Proof.
  split; [apply sort_insertion_permutes|].
  assert (Rank caller_slice fixture_seen fixture_heap
          = Ret ((Some [0%float; (-1)%float; (-2.578125)%float; (-2.578125)%float], None),
                 mkHeap fixture_vm [7; 1; 2; 2]%Z)) as HRank
    by (vm_compute; reflexivity).
  split; [exact HRank|].
  destruct (scores_follow_policy fixture_seen fixture_heap sort_insertion_permutes)
    as [Hpolicy _].
  destruct (Hpolicy _ _ _ HRank) as (userVec & Huv & Hscores).
  assert (userVec = [0.4296875%float]) as <-; [|exact Hscores].
  change (h_vm fixture_heap) with fixture_vm in Huv.
  rewrite fixture_userVector in Huv. by injection Huv.
Defined.

(** C3 on the fixture: a history of the unknown document 7 alone. *)
Lemma InsufficientHistory_iff_witness :
  @range_spec range_map_to_list ∧
  Rank caller_slice {[7%Z := true]} fixture_heap
  = Ret ((None, Some (InsufficientHistory 1 2)), fixture_heap) ∧
  Recommend {[7%Z := true]} 2 fixture_heap
  = Ret ((None, Some (InsufficientHistory 1 2)), fixture_heap).
Proof.
  split; [apply range_map_to_list_spec|].
  destruct (InsufficientHistory_iff {[7%Z := true]} fixture_heap range_map_to_list_spec)
    as (Hnone & _).
  destruct Hnone as [HRank HRec].
  - intros d [b Hd]. apply lookup_singleton_Some in Hd as [<- _]. reflexivity.
  - split; [apply HRank|apply HRec].
Defined.

(** C4 on the fixture: the top 1 of 2 documents. *)
Lemma Recommend_top_n_witness :
  @sort_permutes sort_insertion ∧ @sort_sorts sort_insertion ∧ (0 ≤ 1)%Z ∧
  Recommend fixture_seen 1 fixture_heap
  = Ret ((Some [(fixture_score 1 (-1)%float)], None), fixture_heap) ∧
  descending [(-1)%float; (-2.578125)%float].
Proof.
  split; [apply sort_insertion_permutes|]. split; [apply sort_insertion_sorts|].
  split; [lia|].
  destruct (Recommend_top_n fixture_seen 1 fixture_heap _ _
              sort_insertion_permutes sort_insertion_sorts fixture_scored)
    as (HRec & _ & _ & _ & Hdesc); [lia|].
  split; [exact HRec|]. apply Hdesc.
  apply strict_weak_onb_correct. vm_compute. reflexivity.
Defined.

(** C5 on the fixture: the candidates 2, 7, 1, 2 become 7, 1, 2, 2. *)
Lemma Rank_reorders_in_place_witness :
  @sort_permutes sort_insertion ∧ @sort_sorts sort_insertion ∧
  Rank caller_slice fixture_seen fixture_heap
  = Ret ((Some [0%float; (-1)%float; (-2.578125)%float; (-2.578125)%float], None),
         mkHeap fixture_vm [7; 1; 2; 2]%Z) ∧
  [7; 1; 2; 2]%Z ≡ₚ [2; 7; 1; 2]%Z ∧
  descending [0%float; (-1)%float; (-2.578125)%float; (-2.578125)%float].
Proof.
  split; [apply sort_insertion_permutes|]. split; [apply sort_insertion_sorts|].
  destruct (Rank_reorders_in_place fixture_seen fixture_heap _ _
              sort_insertion_permutes sort_insertion_sorts fixture_ranked)
    as (HRank & Hperm & _ & _ & Hdesc).
  split; [exact HRank|]. split; [exact Hperm|].
  apply Hdesc. apply strict_weak_onb_correct. vm_compute. reflexivity.
Defined.

(** C6 on the fixture, and on a mapping with vectors of lengths 1 and 2. *)
Lemma NewVectorModel_InvalidDimension_iff_witness :
  @range_spec range_map_to_list ∧
  NewVectorModel (H := binary64) (<[1%Z := [1%float]]> {[2%Z := [(-6)%float; 1%float]]})
    27.5%float 0.5%float
  = Ret (None, Some InvalidDimension) ∧
  ∃ vm, NewVectorModel (H := binary64) fixture_documents 27.5%float 0.5%float
        = Ret (Some vm, None) ∧ nFactors vm = 1.
Proof.
  split; [apply range_map_to_list_spec|]. split.
  - apply (NewVectorModel_InvalidDimension_iff (H := binary64)
             (<[1%Z := [1%float]]> {[2%Z := [(-6)%float; 1%float]]})
             27.5%float 0.5%float range_map_to_list_spec).
    exists 1%Z, 2%Z, [1%float], [(-6)%float; 1%float].
    split; [reflexivity|]. split; [reflexivity|]. simpl. lia.
  - destruct (NewVectorModel_InvalidDimension_iff (H := binary64) fixture_documents
                27.5%float 0.5%float range_map_to_list_spec) as [_ Hok].
    destruct (Hok 1) as [Hreturns _].
    + intros d v Hd. unfold fixture_documents in Hd.
      apply lookup_insert_Some in Hd as [[_ <-]|[_ Hd]]; [done|].
      by apply lookup_singleton_Some in Hd as [_ <-].
    + apply Hreturns.
      * intros Hempty.
        by apply (f_equal (λ m : gmap Z (list float), m !! 1%Z)) in Hempty.
      * lia.
      * vm_compute. discriminate.
      * vm_compute. discriminate.
Defined.

(** Against C6 as the specification has it: the one vector of this
    mapping has the length 0, and no model is returned. *)
Lemma NewVectorModel_zero_length_panics :
  (∀ d v, ({[1%Z := []]} : gmap Z (list float)) !! d = Some v → length v = 0) ∧
  ¬ ∃ vm, NewVectorModel (H := binary64) {[1%Z := []]} 27.5%float 0.5%float
          = Ret (Some vm, None).
Proof.
  split.
  - intros d v Hd. by apply lookup_singleton_Some in Hd as [_ <-].
  - intros [vm Hvm].
    assert (NewVectorModel (H := binary64) {[1%Z := []]} 27.5%float 0.5%float
            = Panic "mat: zero length in matrix dimension"%string) as Hpanic
      by (vm_compute; reflexivity).
    rewrite Hpanic in Hvm. discriminate Hvm.
Qed.

(** C7 on the fixture: the Gram matrix is the 1×1 matrix (37). *)
Lemma gram_matrix_invariant_witness :
  @range_spec range_map_to_list ∧
  NewVectorModel (H := binary64) fixture_documents 27.5%float 0.5%float
  = Ret (Some fixture_vm, None) ∧
  At (squaredItemFactorsYtY fixture_vm) 0 0 = Ret 37%float ∧
  ∀ h', Rank caller_slice fixture_seen fixture_heap
        = Ret ((Some [0%float; (-1)%float; (-2.578125)%float; (-2.578125)%float], None), h') →
        h_vm h' = fixture_vm.
Proof.
  split; [apply range_map_to_list_spec|]. split; [apply fixture_built|].
  destruct (gram_matrix_invariant (H := binary64) fixture_documents 27.5%float 0.5%float
              fixture_vm None range_map_to_list_spec fixture_built)
    as (_ & _ & _ & _ & _ & _ & Hgram & HRank & _).
  split.
  - rewrite Hgram by (simpl; lia). vm_compute. reflexivity.
  - intros h' Hh'. apply (HRank fixture_seen fixture_heap _ _ Hh').
Defined.

(** C8 on the fixture: the seen document 1 precedes document 2, whose
    score is not greater than −1. *)
Lemma Recommend_seen_item_position_witness :
  @sort_permutes sort_insertion ∧ @sort_sorts sort_insertion ∧
  (Z.of_nat (length (docIDs fixture_vm)) ≤ 2)%Z ∧
  Recommend fixture_seen 2 fixture_heap
  = Ret ((Some [(fixture_score 1 (-1)%float); (fixture_score 2 (-2.578125)%float)],
          None), fixture_heap) ∧
  Forall (λ ds, fgt (Score ds) (fopp fone) = false) [(fixture_score 2 (-2.578125)%float)].
Proof.
  split; [apply sort_insertion_permutes|]. split; [apply sort_insertion_sorts|].
  split; [simpl; lia|].
  destruct (Recommend_seen_item_position fixture_seen 2 fixture_heap _ _
              sort_insertion_permutes sort_insertion_sorts fixture_scored)
    as (HRec & _ & Hpos); [simpl; lia|].
  split; [exact HRec|].
  destruct (Hpos [] (fixture_score 1 (-1)%float) [(fixture_score 2 (-2.578125)%float)])
    as [_ Horder]; [reflexivity|by eexists|].
  apply Horder. apply strict_weak_onb_correct. vm_compute. reflexivity.
Defined.

(** C8 as the claim states it fails: with the documents 1, 2 and 3 of
    factors 1, −6 and 2, confidence 23.5 and regularization 0.5, the user
    who has seen document 1 has the vector 0.3671875; document 3 scores
    0.734375, above the −1 of the seen document, and document 2 scores
    −2.203125, below it.  [Recommend] ranks the seen document before the
    unseen document 2, and for n = 2 returns it instead of document 2. *)
Lemma Recommend_seen_item_not_last :
  ∃ vm : @VectorModel binary64,
    NewVectorModel (H := binary64) (<[3%Z := [2%float]]> fixture_documents)
      23.5%float 0.5%float
    = Ret (Some vm, None) ∧
    is_Some (fixture_seen !! 1%Z) ∧ fixture_seen !! 2%Z = None ∧
    is_Some (docIndexes vm !! 1%Z) ∧ is_Some (docIndexes vm !! 2%Z) ∧
    Recommend fixture_seen 3 (mkHeap vm [])
    = Ret ((Some [fixture_score 3 0.734375%float; fixture_score 1 (-1)%float;
                  fixture_score 2 (-2.203125)%float], None), mkHeap vm []) ∧
    Recommend fixture_seen 2 (mkHeap vm [])
    = Ret ((Some [fixture_score 3 0.734375%float; fixture_score 1 (-1)%float], None),
           mkHeap vm []) ∧
    ¬ seen_rank_last fixture_seen
        [fixture_score 3 0.734375%float; fixture_score 1 (-1)%float;
         fixture_score 2 (-2.203125)%float].
Proof.
  eexists. split; [vm_compute; reflexivity|].
  split; [by eexists|]. split; [reflexivity|].
  split; [by eexists|]. split; [by eexists|].
  split; [vm_compute; reflexivity|]. split; [vm_compute; reflexivity|].
  intros Hlast.
  specialize (Hlast [fixture_score 3 0.734375%float] (fixture_score 1 (-1)%float)
                [fixture_score 2 (-2.203125)%float] eq_refl).
  assert (is_Some (fixture_seen !! 1%Z)) as Hseen by (by eexists).
  apply Hlast in Hseen. apply Forall_cons in Hseen as [[b Hb] _].
  vm_compute in Hb. discriminate.
Qed.

(** C9 on the instance. *)
Lemma NewVectorModel_empty_witness :
  @range_spec range_map_to_list ∧
  NewVectorModel (H := binary64) ∅ 27.5%float 0.5%float
  = Panic "mat: zero length in matrix dimension"%string.
Proof.
  split; [apply range_map_to_list_spec|].
  apply (NewVectorModel_empty (H := binary64) 27.5%float 0.5%float
           range_map_to_list_spec).
Defined.

(** Against C9 as the specification has it: no model comes back for the
    empty mapping. *)
Lemma NewVectorModel_empty_aborts :
  size (∅ : gmap Z (list float)) = 0 ∧
  ¬ returns (NewVectorModel (H := binary64) ∅ 27.5%float 0.5%float).
Proof.
  split; [reflexivity|]. intros [r Hr].
  assert (NewVectorModel (H := binary64) ∅ 27.5%float 0.5%float
          = Panic "mat: zero length in matrix dimension"%string) as Hpanic
    by (vm_compute; reflexivity).
  rewrite Hpanic in Hr. discriminate Hr.
Qed.

(** C10 on the fixture: n = −1. *)
Lemma Recommend_negative_n_panics_witness :
  scoreCandidates vm_docIDs fixture_seen fixture_heap
  = Ret ((Some [(fixture_score 1 (-1)%float); (fixture_score 2 (-2.578125)%float)],
          None), fixture_heap) ∧
  Recommend fixture_seen (-1) fixture_heap
  = Panic "runtime error: slice bounds out of range"%string.
Proof.
  split; [apply fixture_scored|].
  destruct (Recommend_negative_n_panics fixture_seen (-1) fixture_heap _ _ fixture_scored)
    as [Hneg _].
  apply Hneg. lia.
Defined.

(** X1 on the fixture, for a user who has also seen the unknown
    document 7. *)
Lemma confidenceMap_seen_in_model_witness :
  @range_spec range_map_to_list ∧
  size (confidenceMap fixture_vm (<[7%Z := false]> fixture_seen))
  ≤ size (<[7%Z := false]> fixture_seen).
Proof.
  split; [apply range_map_to_list_spec|].
  destruct (confidenceMap_seen_in_model fixture_vm (<[7%Z := false]> fixture_seen)
              range_map_to_list_spec) as (_ & _ & Hsize).
  exact Hsize.
Defined.

(** X2 on the 2×2 matrix with 0.5 on the diagonal. *)
Lemma eye_diagonal_witness :
  (0 < 2)%Z ∧ (2 * 2 ≤ max_int)%Z ∧
  ∃ m, eye (H := binary64) 2 0.5%float = Ret m ∧ rows m = Z.to_nat 2.
Proof.
  split; [lia|]. split; [vm_compute; discriminate|].
  destruct (eye_diagonal (H := binary64) 2 0.5%float) as [_ Hpos].
  destruct Hpos as (m & Hm & Hrows & _); [lia|vm_compute; discriminate|].
  exists m. split; [exact Hm|exact Hrows].
Defined.

(** X3 on the fixture: the scores of the user vector (0.4296875). *)
Lemma scoresForUserVec_dot_products_witness :
  well_formed fixture_vm ∧
  ∃ scores : list float,
    scoresForUserVec fixture_vm [0.4296875%float] = Ret scores ∧
    length scores = length (docIDs fixture_vm).
Proof.
  split; [apply fixture_well_formed|].
  destruct (scoresForUserVec_dot_products fixture_vm [0.4296875%float]
              fixture_well_formed) as [_ Hok].
  destruct Hok as (scores & Hscores & Hlen & _); [reflexivity|].
  exists scores. split; [exact Hscores|exact Hlen].
Defined.

(** X4 on the documents of the fixture. *)
Lemma NewVectorModel_index_witness :
  @range_spec range_map_to_list ∧
  ∃ vm, NewVectorModel (H := binary64) fixture_documents 27.5%float 0.5%float
        = Ret (Some vm, None) ∧
        NoDup (docIDs vm) ∧ length (docIDs vm) = size fixture_documents.
Proof.
  split; [apply range_map_to_list_spec|].
  destruct (NewVectorModel_index (H := binary64) fixture_documents 27.5%float 0.5%float
              range_map_to_list_spec)
    as [Herr|[(vm & Hvm & _ & _ & _ & _ & Hnd & Hlen & _)|(msg & f & Hpanic & _)]].
  - rewrite fixture_built in Herr. discriminate Herr.
  - exists vm. split; [exact Hvm|]. split; [exact Hnd|exact Hlen].
  - rewrite fixture_built in Hpanic. discriminate Hpanic.
Defined.

(** X5 on the fixture: document 1 mapped to false, and the maps of the
    second call visited in the opposite order. *)
Lemma seenDocs_values_ignored_witness :
  @range_spec range_map_to_list ∧ @range_spec range_reversed ∧
  Recommend (H0 := range_map_to_list) fixture_seen 2 fixture_heap
  = Recommend (H0 := range_reversed) ({[1%Z := false]} : gmap Z bool) 2 fixture_heap.
Proof.
  split; [apply range_map_to_list_spec|]. split; [apply range_reversed_spec|].
  destruct (seenDocs_values_ignored range_map_to_list range_reversed
              fixture_seen {[1%Z := false]} fixture_heap
              range_map_to_list_spec range_reversed_spec) as (_ & _ & HRec).
  - unfold fixture_seen. rewrite !dom_singleton_L. reflexivity.
  - vm_compute. reflexivity.
  - apply HRec.
Defined.

(** X6 on the fixture. *)
Lemma Rank_Recommend_in_bounds_witness :
  @sort_permutes sort_insertion ∧ well_formed fixture_vm ∧
  returns (Rank caller_slice fixture_seen fixture_heap) ∧
  returns (Recommend fixture_seen 0 fixture_heap).
Proof.
  split; [apply sort_insertion_permutes|]. split; [apply fixture_well_formed|].
  destruct (Rank_Recommend_in_bounds fixture_seen fixture_heap
              sort_insertion_permutes fixture_well_formed) as [HRank HRec].
  - intros ch Hch. vm_compute in Hch. injection Hch as <-.
    exists [0.4296875%float], None. split; vm_compute; reflexivity.
  - split; [apply HRank|apply HRec; lia].
Defined.

(** X7 on the fixture: an entry for the unknown document 5. *)
Lemma userVector_skips_unknown_witness :
  well_formed fixture_vm ∧
  userVector fixture_vm {[1%Z := 27.5%float]}
  = userVector fixture_vm (<[5%Z := 3%float]> {[1%Z := 27.5%float]}).
Proof.
  split; [apply fixture_well_formed|].
  apply (userVector_skips_unknown fixture_vm); [apply fixture_well_formed|].
  vm_compute. reflexivity.
Defined.

(** X8 on the fixture. *)
Lemma unsafeSymmetric_is_symmetric_witness :
  (∀ x y : float, @fmul binary64 x y = @fmul binary64 y x) ∧ well_formed fixture_vm ∧
  Symmetric_ (unsafeSymmetric
                (tabulate (nFactors fixture_vm) (nFactors fixture_vm)
                   (system_A fixture_vm (range ({[1%Z := 27.5%float]} : gmap Z float))))
                (nFactors fixture_vm))
  = 1.
Proof.
  split; [apply binary64_mul_comm|]. split; [apply fixture_well_formed|].
  destruct (unsafeSymmetric_is_symmetric fixture_vm {[1%Z := 27.5%float]}
              binary64_mul_comm fixture_well_formed) as (_ & Hrows & _).
  exact Hrows.
Defined.

(** X9 on the fixture, the caller's slice holding the documents 2, 1,
    and the maps of the call of [Rank] visited in the opposite order. *)
Lemma Recommend_is_Rank_prefix_witness :
  @range_spec range_map_to_list ∧ @range_spec range_reversed ∧
  @sort_permutes sort_insertion ∧
  ∃ all,
    Rank (H0 := range_reversed) caller_slice fixture_seen (mkHeap fixture_vm [2; 1]%Z)
    = Ret ((Some (Score <$> all), None), mkHeap fixture_vm (DocumentID <$> all)) ∧
    [fixture_score 1 (-1)%float] = take (Z.to_nat 1) all.
Proof.
  split; [apply range_map_to_list_spec|]. split; [apply range_reversed_spec|].
  split; [apply sort_insertion_permutes|].
  apply (Recommend_is_Rank_prefix range_map_to_list range_reversed
           fixture_seen 1 (mkHeap fixture_vm [2; 1]%Z)
           [fixture_score 1 (-1)%float] None (mkHeap fixture_vm [2; 1]%Z)
           range_map_to_list_spec range_reversed_spec sort_insertion_permutes);
    [reflexivity|vm_compute; reflexivity|vm_compute; reflexivity].
Defined.

(** X10 on the fixture: document 2 is twice among the candidates. *)
Lemma Rank_same_document_same_score_witness :
  @sort_permutes sort_insertion ∧
  [0%float; (-1)%float; (-2.578125)%float; (-2.578125)%float] !! 2
  = [0%float; (-1)%float; (-2.578125)%float; (-2.578125)%float] !! 3.
Proof.
  split; [apply sort_insertion_permutes|].
  assert (Rank caller_slice fixture_seen fixture_heap
          = Ret ((Some [0%float; (-1)%float; (-2.578125)%float; (-2.578125)%float], None),
                 mkHeap fixture_vm [7; 1; 2; 2]%Z)) as HRank
    by (vm_compute; reflexivity).
  destruct (Rank_same_document_same_score _ _ _ _ _ _ sort_insertion_permutes HRank
              2 3 2%Z eq_refl eq_refl) as [_ Heq].
  exact Heq.
Defined.

(** X11 on a slice of two scores. *)
Lemma byDocScoreDesc_Swap_exchanges_witness :
  0 < byDocScoreDesc_Len [fixture_score 1 (-1)%float; fixture_score 2 0.5%float] ∧
  1 < byDocScoreDesc_Len [fixture_score 1 (-1)%float; fixture_score 2 0.5%float] ∧
  ∃ a', byDocScoreDesc_Swap [fixture_score 1 (-1)%float; fixture_score 2 0.5%float] 0 1
        = Ret a' ∧
        a' ≡ₚ [fixture_score 1 (-1)%float; fixture_score 2 0.5%float].
Proof.
  split; [unfold byDocScoreDesc_Len; simpl; lia|].
  split; [unfold byDocScoreDesc_Len; simpl; lia|].
  destruct (byDocScoreDesc_Swap_exchanges
              [fixture_score 1 (-1)%float; fixture_score 2 0.5%float] 0 1)
    as (a' & Hswap & _ & Hperm & _);
    [unfold byDocScoreDesc_Len; simpl; lia..|].
  exists a'. split; [exact Hswap|exact Hperm].
Defined.

(** X12 on a slice of one score. *)
Lemma byDocScoreDesc_out_of_range_witness :
  (byDocScoreDesc_Len [fixture_score 1 (-1)%float] ≤ 0
   ∨ byDocScoreDesc_Len [fixture_score 1 (-1)%float] ≤ 1) ∧
  ¬ returns (byDocScoreDesc_Swap [fixture_score 1 (-1)%float] 0 1).
Proof.
  assert (byDocScoreDesc_Len [fixture_score 1 (-1)%float] ≤ 0
          ∨ byDocScoreDesc_Len [fixture_score 1 (-1)%float] ≤ 1) as Hout
    by (right; unfold byDocScoreDesc_Len; simpl; lia).
  split; [exact Hout|].
  apply (byDocScoreDesc_out_of_range [fixture_score 1 (-1)%float] 0 1 Hout).
Defined.

(** X15 on the fixture: the top 1 of the two documents. *)
Lemma Recommend_distinct_documents_witness :
  @range_spec range_map_to_list ∧ @sort_permutes sort_insertion ∧
  NoDup (DocumentID <$> [fixture_score 1 (-1)%float]) ∧
  length [fixture_score 1 (-1)%float] = Z.to_nat 1 `min` size fixture_documents.
Proof.
  split; [apply range_map_to_list_spec|]. split; [apply sort_insertion_permutes|].
  destruct (Recommend_distinct_documents (H := binary64) fixture_documents
              27.5%float 0.5%float
              fixture_vm fixture_seen 1 fixture_heap [fixture_score 1 (-1)%float]
              None fixture_heap range_map_to_list_spec sort_insertion_permutes
              fixture_built eq_refl) as (Hnd & _ & Hlen); [vm_compute; reflexivity|].
  split; [exact Hnd|exact Hlen].
Defined.

(** X14 on the fixture. *)
Lemma float64_scores_descending_witness :
  @sort_permutes sort_insertion ∧ @sort_sorts sort_insertion ∧
  descending [0%float; (-1)%float; (-2.578125)%float; (-2.578125)%float].
Proof.
  split; [apply sort_insertion_permutes|]. split; [apply sort_insertion_sorts|].
  destruct (float64_scores_descending fixture_seen fixture_heap
              sort_insertion_permutes sort_insertion_sorts) as [HRank _].
  apply (HRank caller_slice _ None (mkHeap fixture_vm [7; 1; 2; 2]%Z));
    [vm_compute; reflexivity|].
  repeat (constructor; [vm_compute; reflexivity|]). constructor.
Defined.

(** * The tests of the repository, run on the instance *)

#[local] Set Warnings "-inexact-float".

(** [TestVectorModelConstructor] *)
Example TestVectorModelConstructor :
  NewVectorModel (H := binary64) {[1234%Z := [1; 2; 3]%float]} 1%float 0.01%float
  = Ret (Some (@mkVectorModel binary64 1%float 0.01%float [1234%Z] {[1234%Z := 0]} 3
                 (@mkDense binary64 1 3 [1; 2; 3]%float)
                 (@mkDense binary64 3 3 [1; 2; 3; 2; 4; 6; 3; 6; 9]%float)), None).
Proof. vm_compute. reflexivity. Qed.

(** [TestVectorModelConstructorWithInvalidVectors] *)
Example TestVectorModelConstructorWithInvalidVectors :
  NewVectorModel (H := binary64)
    (<[1234%Z := [1; 2; 3]%float]> {[1235%Z := [1; 2; 3; 5]%float]}) 1%float 0.01%float
  = Ret (None, Some InvalidDimension).
Proof. vm_compute. reflexivity. Qed.

(** [TestUserVector]: the user vector is within 1e-4 of the expected one. *)
Example TestUserVector :
  ∃ vm a b c,
    NewVectorModel (H := binary64) {[1234%Z := [1; 2; 3]%float]} 40%float 0.01%float
    = Ret (Some vm, None) ∧
    userVector vm (<[1234%Z := 40%float]> {[666%Z := 1%float]}) = Ret ([a; b; c], None) ∧
    (PrimFloat.abs (a - 0.0714273) + PrimFloat.abs (b - 0.14285459)
     + PrimFloat.abs (c - 0.21428189) <=? 1e-4)%float = true.
Proof.
  eexists _, _, _, _. split; [vm_compute; reflexivity|].
  split; [vm_compute; reflexivity|]. vm_compute. reflexivity.
Qed.

(** [TestRecommend]: the unseen document first, with a score within 1e-5
    of 0.00104011, then the seen one. *)
Example TestRecommend :
  ∃ vm score h',
    NewVectorModel (H := binary64)
      (<[1234%Z := [1; 2; 3]%float]> {[4567%Z := [3; 2; 1]%float]}) 40%float 0.01%float
    = Ret (Some vm, None) ∧
    Recommend {[1234%Z := true]} 10 (mkHeap vm [])
    = Ret ((Some [fixture_score 4567 score; fixture_score 1234 (-1)%float], None), h') ∧
    (PrimFloat.abs (score - 0.00104011) <=? 1e-5)%float = true.
Proof.
  eexists _, _, _. split; [vm_compute; reflexivity|].
  split; [vm_compute; reflexivity|]. vm_compute. reflexivity.
Qed.

(** [TestRecommendReturnsTopItems] *)
Example TestRecommendReturnsTopItems :
  ∃ vm recs h',
    NewVectorModel (H := binary64)
      (<[0%Z := [1; 2; 3]%float]> (<[1%Z := [1; 2; 3.01]%float]>
        (<[2%Z := [1; 2; 3.02]%float]> (<[3%Z := [3; 2; 1]%float]>
          {[4%Z := [1; 2; 3.03]%float]})))) 40%float 0.01%float
    = Ret (Some vm, None) ∧
    Recommend {[0%Z := true]} 3 (mkHeap vm []) = Ret ((Some recs, None), h') ∧
    DocumentID <$> recs = [1; 2; 4]%Z.
Proof.
  eexists _, _, _. split; [vm_compute; reflexivity|].
  split; [vm_compute; reflexivity|]. reflexivity.
Qed.

(** [TestRankSortsTopItems]: most similar, not read, unknown, read. *)
Example TestRankSortsTopItems :
  ∃ vm scores,
    NewVectorModel (H := binary64)
      (<[0%Z := [1; 2; 3]%float]> (<[1%Z := [1; 2; 3]%float]>
        (<[2%Z := [1; 2; 3]%float]> (<[3%Z := [3; 2; 1]%float]>
          {[4%Z := [1; 2; 3]%float]})))) 40%float 0.01%float
    = Ret (Some vm, None) ∧
    Rank caller_slice {[0%Z := true]} (mkHeap vm [0; 1; 3; 10]%Z)
    = Ret ((Some scores, None), mkHeap vm [1; 3; 10; 0]%Z).
Proof.
  eexists _, _. split; [vm_compute; reflexivity|]. vm_compute. reflexivity.
Qed.
